(** * Gaussian beam propagation through thin lenses

    Shallow embedding of [lens_system_design.py]: the class [BeamSection]
    (one free-space section of a Gaussian beam) and the class
    [BeamPropagation] (a beam followed through a row of thin lenses).

    Numbers.  The program computes with binary64 floats (Python floats
    and NumPy [float64] scalars and arrays).  They are read here as real
    numbers: [+], [-], [*], [/], [**2] and [sp.sqrt] are the exact
    operations of [R], [sp.pi] is [PI].  Rounding, overflow and NaN are
    outside the embedding, and every input is taken to be a float (the
    program is Python 2, where [/] on integers would truncate).  The two
    infinite entries of [beamsLimits] ([-sp.inf], [sp.inf]) are kept as
    symbolic limits.

    Zero divisors.  Division and square root are total functions here,
    as they are on NumPy scalars, where a zero divisor gives inf or nan
    and a warning but raises nothing.  Inside [BeamPropagation] every
    division of [transformByLens] has a NumPy operand, because the focal
    lengths and positions are entries of the array [lenses].  (On plain
    Python floats a zero divisor raises [ZeroDivisionError].)  Every
    theorem about a computed value states the facts under which no
    divisor is zero; theorems about which exception is raised do not
    depend on the value a zero divisor yields.

    Objects.  No method assigns an attribute outside [__init__], so an
    object is a record value and a method is a function of its
    receiver.  The methods [report], [reportLenses] and
    [reportParameters] only print; they and the drawing calls of
    [plotFull] are left out. *)

From Stdlib Require Import String.
From Stdlib Require Import Reals Lra Lia List Bool Arith.
From Stdlib Require Import Sorted Permutation.
Import ListNotations.

Local Open Scope R_scope.

(** ** Comparisons of floats, as booleans *)

Definition Rleb (x y : R) : bool := if Rle_dec x y then true else false.
Definition Rltb (x y : R) : bool := if Rlt_dec x y then true else false.
Definition Rgeb (x y : R) : bool := Rleb y x.
Definition Rgtb (x y : R) : bool := Rltb y x.
Definition Reqb (x y : R) : bool := if Req_dec_T x y then true else false.

(** ** The class [BeamSection] *)

Module BeamSection.

(** The four attributes [__init__] sets. *)
Record t : Type := mk { z0 : R; w0 : R; lambd : R; zR : R }.

(** [BeamSection(wavelength, waist, position)]. *)
Definition init (wavelength waist position : R) : t :=
  {| z0 := position;
     w0 := waist;
     lambd := wavelength;
     zR := PI * waist ^ 2 / wavelength |}.

(** [waist(self, z)] at one coordinate. *)
Definition waist (self : t) (z : R) : R :=
  w0 self * sqrt (1 + (z - z0 self) ^ 2 / zR self ^ 2).

Definition divergence (self : t) : R :=
  lambd self / (PI * w0 self).

Definition transformByLens (self : t) (f z : R) : t :=
  let d_in := z - z0 self in
  let denom := (d_in / f - 1) ^ 2 + (zR self / f) ^ 2 in
  let d_out := f * (1 + (d_in / f - 1) / denom) in
  let z0' := z + d_out in
  let w0' := w0 self / sqrt denom in
  init (lambd self) w0' z0'.

Definition parameters (self : t) : R * R * R :=
  (lambd self, w0 self, z0 self).

End BeamSection.

(** The functions at the end of the module.  [denominator] is the
    expression [transformByLens] binds to [denom], [propagated_waist]
    the size at [z] of a beam with waist [w_0] at [sz]. *)
Definition denominator (d_in f zR : R) : R :=
  (d_in / f - 1) ^ 2 + (zR / f) ^ 2.

Definition propagated_waist (w_0 z zR sz : R) : R :=
  w_0 * sqrt (1 + ((z - sz) / zR) ^ 2).

Definition rayleigh_range (waist lambd : R) : R :=
  PI * waist ^ 2 / lambd.

(** [RayleighR(self)], for any object with attributes [w0] and [lambd]. *)
Definition RayleighR (self : BeamSection.t) : R :=
  PI * BeamSection.w0 self ^ 2 / BeamSection.lambd self.

(** ** NumPy arrays, as lists *)

(** Element-wise arithmetic of an array with a scalar. *)
Definition arr_sub_s (a : list R) (s : R) : list R := map (fun x => x - s) a.
Definition arr_sq (a : list R) : list R := map (fun x => x ^ 2) a.
Definition arr_div_s (a : list R) (s : R) : list R := map (fun x => x / s) a.
Definition s_add_arr (s : R) (a : list R) : list R := map (fun x => s + x) a.
Definition arr_sqrt (a : list R) : list R := map sqrt a.
Definition s_mul_arr (s : R) (a : list R) : list R := map (fun x => s * x) a.

(** [BeamSection.waist(z)] when [z] is an array: the same expression,
    every operation broadcast over [z]. *)
Definition waist_of_array (self : BeamSection.t) (z : list R) : list R :=
  s_mul_arr (BeamSection.w0 self)
    (arr_sqrt (s_add_arr 1
       (arr_div_s (arr_sq (arr_sub_s z (BeamSection.z0 self)))
                  (BeamSection.zR self ^ 2)))).

(** [BeamSection] applied to an unpacked vector [parms] of three
    entries (the starred call of the source). *)
Definition BeamSection_of (parms : R * R * R) : BeamSection.t :=
  let '(wavelength, waist, position) := parms in
  BeamSection.init wavelength waist position.

(** [a.argsort()]: the indices of [a] in ascending order of the entries.
    Written as an insertion sort that keeps equal entries in their
    original order; on pairwise distinct entries every sorting method
    returns the same indices. *)
Fixpoint insert_index (a : list R) (i : nat) (l : list nat) : list nat :=
  match l with
  | [] => [i]
  | j :: l' =>
      if Rleb (nth i a 0) (nth j a 0) then i :: j :: l'
      else j :: insert_index a i l'
  end.

Definition argsort (a : list R) : list nat :=
  fold_right (insert_index a) [] (seq 0 (length a)).

(** [a[idx]] for an array of indices [idx]. *)
Definition take_indices {A : Type} (d : A) (a : list A) (idx : list nat)
  : list A :=
  map (fun i => nth i a d) idx.

(** [a[i] = v] (a column assignment when [a] is a list of columns). *)
Fixpoint set_nth {A : Type} (i : nat) (v : A) (a : list A) : list A :=
  match a, i with
  | [], _ => []
  | _ :: a', O => v :: a'
  | x :: a', S i' => x :: set_nth i' v a'
  end.

(** [a.all()]: every entry is nonzero. *)
Definition all (a : list R) : bool :=
  forallb (fun x => negb (Reqb x 0)) a.

(** A boolean read as a number, as in the comparison [z0 > True]. *)
Definition R_of_bool (b : bool) : R := if b then 1 else 0.

(** [a[mask]] and [a[mask] = vals] for a boolean mask. *)
Fixpoint mask_select {A : Type} (mask : list bool) (a : list A) : list A :=
  match mask, a with
  | m :: mask', x :: a' =>
      if m then x :: mask_select mask' a' else mask_select mask' a'
  | _, _ => []
  end.

Fixpoint mask_assign {A : Type} (mask : list bool) (a vals : list A)
  : list A :=
  match mask, a with
  | true :: mask', x :: a' =>
      match vals with
      | v :: vals' => v :: mask_assign mask' a' vals'
      | [] => x :: a'
      end
  | false :: mask', x :: a' => x :: mask_assign mask' a' vals
  | _, _ => a
  end.

(** Ceiling of a real, as an integer. *)
Definition Rceil (x : R) : Z := (- Int_part (- x))%Z.

(** [sp.arange(start, stop, step)]: [ceil((stop - start)/step)] entries
    [start + i*step]. *)
Definition arange (start stop step : R) : list R :=
  map (fun i => start + INR i * step)
      (seq 0 (Z.to_nat (Rceil ((stop - start) / step)))).

(** ** Entries of [beamsLimits] *)

(** A lens position, [-sp.inf] or [sp.inf]. *)
Inductive limit : Type :=
| NegInf : limit
| Fin : R -> limit
| PosInf : limit.

(** [z >= l], [z > l] and [z <= l] for a finite [z]. *)
Definition ge_limit (z : R) (l : limit) : bool :=
  match l with NegInf => true | Fin x => Rgeb z x | PosInf => false end.
Definition gt_limit (z : R) (l : limit) : bool :=
  match l with NegInf => true | Fin x => Rgtb z x | PosInf => false end.
Definition le_limit (z : R) (l : limit) : bool :=
  match l with NegInf => false | Fin x => Rleb z x | PosInf => true end.

(** ** Exceptions *)

Inductive exn : Type :=
| Exception : string -> exn      (* [raise Exception(msg)] *)
| IndexError : exn               (* [a[-1]] on an empty array *)
| ArangeFailure : exn.           (* [sp.arange] with a zero step *)

(** ** The class [BeamPropagation] *)

Module BeamPropagation.

(** The attributes of a constructed object.  [beamsLimits] is the pair
    of its two rows, [beamParams] the list of its columns
    [(wavelength, waist, position)]. *)
Record t : Type := mk {
  lensPositions : list R;
  lensFocals : list R;
  z0 : R;
  w0 : R;
  amountElements : nat;
  amountSections : nat;
  beamsLimits : list limit * list limit;
  beamParams : list (R * R * R)
}.

Definition waist_message : string :=
  "The position of the initial waist is not smaller than the positions of the lenses"%string.

(** One turn of the loop [for ii in range(0, amountElements)]; the state
    is [(beamParams, parms)]. *)
Definition loop_body (lensFocals lensPositions : list R)
  (st : list (R * R * R) * (R * R * R)) (ii : nat)
  : list (R * R * R) * (R * R * R) :=
  let '(beamParams, parms) := st in
  let oldBeam := BeamSection_of parms in
  let newBeam :=
    BeamSection.transformByLens oldBeam
      (nth ii lensFocals 0) (nth ii lensPositions 0) in
  let beamParams' :=
    set_nth (ii + 1) (BeamSection.parameters newBeam) beamParams in
  (beamParams', nth (ii + 1) beamParams' (0, 0, 0)).

(** [BeamPropagation(originalBeamParams, lenses)].  [lenses] is the
    2xN matrix, given by its columns [(focal, position)]. *)
Definition init (originalBeamParams : R * R * R) (lenses : list (R * R))
  : exn + t :=
  let distancesList := map snd lenses in
  let focalsList := map fst lenses in
  let lensPositions := take_indices 0 distancesList (argsort distancesList) in
  let lensFocals := take_indices 0 focalsList (argsort distancesList) in
  let z0 := snd originalBeamParams in
  let w0 := snd (fst originalBeamParams) in
  let amountElements := length lensPositions in
  let amountSections := (amountElements + 1)%nat in
  let beamsLimits :=
    (NegInf :: map Fin lensPositions, map Fin lensPositions ++ [PosInf]) in
  if Rgtb z0 (R_of_bool (all lensPositions)) then
    inl (Exception waist_message)
  else
    let beamParams0 :=
      set_nth 0 originalBeamParams (repeat (0, 0, 0) amountSections) in
    let beamParams :=
      fst (fold_left (loop_body lensFocals lensPositions)
             (seq 0 amountElements) (beamParams0, originalBeamParams)) in
    inr {| lensPositions := lensPositions;
           lensFocals := lensFocals;
           z0 := z0;
           w0 := w0;
           amountElements := amountElements;
           amountSections := amountSections;
           beamsLimits := beamsLimits;
           beamParams := beamParams |}.

(** The local [index] of [waist]: the sections [j] whose column of
    [z >= beamsLimits] sums to 1. *)
Definition index (self : t) (z : R) : list nat :=
  filter
    (fun j =>
       (Nat.b2n (ge_limit z (nth j (fst (beamsLimits self)) (Fin 0)))
        + Nat.b2n (ge_limit z (nth j (snd (beamsLimits self)) (Fin 0)))
        =? 1)%nat)
    (seq 0 (amountSections self)).

(** [waist(self, z)]: one value for each entry of [index]. *)
Definition waist (self : t) (z : R) : list R :=
  map (fun j =>
         BeamSection.waist
           (BeamSection_of (nth j (beamParams self) (0, 0, 0))) z)
      (index self z).

Definition NUMBER_OF_STEPS : nat := 300.

(** One turn of the loop [for ii in range(amountSections)] of
    [plotFull]; the state is [beamWidth]. *)
Definition plot_body (self : t) (z : list R) (beamWidth : list R)
  (ii : nat) : list R :=
  let localIndices :=
    map (fun zk =>
           gt_limit zk (nth ii (fst (beamsLimits self)) (Fin 0))
           && le_limit zk (nth ii (snd (beamsLimits self)) (Fin 0))) z in
  let zlocal := mask_select localIndices z in
  mask_assign localIndices beamWidth
    (waist_of_array
       (BeamSection_of (nth ii (beamParams self) (0, 0, 0))) zlocal).

(** [plotFull(zmin, zmax)]: the arrays [z] and [beamWidth] handed to
    [plt.plot].  The drawing itself and the keyword arguments, which
    only change the drawing, are left out. *)
Definition plotFull (self : t) (zmin zmax : option R)
  : exn + list R * list R :=
  match
    match zmin, zmax with
    | Some a, Some b => inr (a, b)
    | _, _ =>
        match rev (lensPositions self), rev (lensFocals self) with
        | p :: _, f :: _ => inr (z0 self, p + f)
        | _, _ => inl IndexError
        end
    end
  with
  | inl e => inl e
  | inr (zmin, zmax) =>
      let step := (zmax - zmin) / INR NUMBER_OF_STEPS in
      if Reqb step 0 then inl ArangeFailure
      else
        let z := arange zmin zmax step in
        let beamWidth0 := repeat 0 (length z) in
        inr (z, fold_left (plot_body self z)
                  (seq 0 (amountSections self)) beamWidth0)
  end.

End BeamPropagation.

(** ** Quantities used in the statements *)

(** The keys read through a sorted index list are ascending. *)
Definition keys_sorted (a : list R) (l : list nat) : Prop :=
  Sorted Rle (take_indices 0 a l).

(** The section after one lens, as a column of parameters. *)
Definition next_column (parms : R * R * R) (f z : R) : R * R * R :=
  BeamSection.parameters
    (BeamSection.transformByLens (BeamSection_of parms) f z).

(** The columns the loop writes from lens [s] on, [n] of them. *)
Fixpoint columns_from (fs ps : list R) (parms : R * R * R) (s n : nat)
  : list (R * R * R) :=
  match n with
  | O => []
  | S n' =>
      let parms' := next_column parms (nth s fs 0) (nth s ps 0) in
      parms' :: columns_from fs ps parms' (S s) n'
  end.

(** The rows of [beamsLimits] for the positions [ps], with any first
    lower limit [lo]. *)
Definition limit_rows (lo : limit) (ps : list R) : list limit * list limit :=
  (lo :: map Fin ps, map Fin ps ++ [PosInf]).

(** Section [j] lies between its limits: the coordinate is beyond the
    lower limit and not beyond the upper one, where [above l] says that
    the coordinate lies beyond [l]. *)
Definition between (above : limit -> bool) (rows : list limit * list limit)
  (j : nat) : bool :=
  above (nth j (fst rows) (Fin 0))
  && negb (above (nth j (snd rows) (Fin 0))).

(** Section [j] of a constructed object, as a [BeamSection]. *)
Definition segment (c : BeamPropagation.t) (j : nat) : BeamSection.t :=
  BeamSection_of (nth j (BeamPropagation.beamParams c) (0, 0, 0)).

(** The interval of section [j] read as (lower, upper], the reading of
    [plotFull]. *)
Definition interval_contains (c : BeamPropagation.t) (z : R) (j : nat)
  : bool :=
  gt_limit z (nth j (fst (BeamPropagation.beamsLimits c)) (Fin 0))
  && le_limit z (nth j (snd (BeamPropagation.beamsLimits c)) (Fin 0)).

(** ** Comparisons *)

Lemma Rleb_true_iff (x y : R) : Rleb x y = true <-> x <= y.
Proof. unfold Rleb. destruct (Rle_dec x y); split; intros; try discriminate; tauto. Qed.

Lemma Rleb_false_iff (x y : R) : Rleb x y = false <-> y < x.
Proof.
  unfold Rleb. destruct (Rle_dec x y); split; intros; try discriminate; lra.
Qed.

Lemma Rltb_true_iff (x y : R) : Rltb x y = true <-> x < y.
Proof. unfold Rltb. destruct (Rlt_dec x y); split; intros; try discriminate; tauto. Qed.

Lemma Rltb_false_iff (x y : R) : Rltb x y = false <-> y <= x.
Proof.
  unfold Rltb. destruct (Rlt_dec x y); split; intros; try discriminate; lra.
Qed.

Lemma Rgeb_true_iff (x y : R) : Rgeb x y = true <-> y <= x.
Proof. apply Rleb_true_iff. Qed.

Lemma Rgeb_false_iff (x y : R) : Rgeb x y = false <-> x < y.
Proof. apply Rleb_false_iff. Qed.

Lemma Rgtb_true_iff (x y : R) : Rgtb x y = true <-> y < x.
Proof. apply Rltb_true_iff. Qed.

Lemma Rgtb_false_iff (x y : R) : Rgtb x y = false <-> x <= y.
Proof. apply Rltb_false_iff. Qed.

Lemma Reqb_true_iff (x y : R) : Reqb x y = true <-> x = y.
Proof. unfold Reqb. destruct (Req_dec_T x y); split; intros; try discriminate; tauto. Qed.

Lemma Reqb_false_iff (x y : R) : Reqb x y = false <-> x <> y.
Proof. unfold Reqb. destruct (Req_dec_T x y); split; intros; try discriminate; tauto. Qed.

(** Decides a comparison between numerals met in the goal. *)
Ltac decide_cmp :=
  repeat match goal with
  | |- context [Rleb ?x ?y] =>
      first [ rewrite (proj2 (Rleb_true_iff x y)) by lra
            | rewrite (proj2 (Rleb_false_iff x y)) by lra ]
  | |- context [Rltb ?x ?y] =>
      first [ rewrite (proj2 (Rltb_true_iff x y)) by lra
            | rewrite (proj2 (Rltb_false_iff x y)) by lra ]
  | |- context [Reqb ?x ?y] =>
      first [ rewrite (proj2 (Reqb_true_iff x y)) by lra
            | rewrite (proj2 (Reqb_false_iff x y)) by lra ]
  end.

(** ** The class [BeamSection]: size of the beam *)

Lemma zR_init_pos (wavelength waist position : R) :
  0 < wavelength -> 0 < waist ->
  0 < BeamSection.zR (BeamSection.init wavelength waist position).
Proof.
  intros Hl Hw. unfold BeamSection.init; simpl.
  apply Rdiv_lt_0_compat; [| exact Hl].
  apply Rmult_lt_0_compat; [exact PI_RGT_0 | nra].
Qed.

Lemma sqrt_one_plus_ge_1 (q : R) : 0 <= q -> 1 <= sqrt (1 + q).
Proof.
  intros Hq. rewrite <- sqrt_1 at 1. apply sqrt_le_1_alt. lra.
Qed.

Lemma sqrt_one_plus_eq_1 (q : R) : 0 <= q -> sqrt (1 + q) = 1 -> q = 0.
Proof.
  intros Hq Hs.
  assert (H : 1 + q = 1).
  { rewrite <- (sqrt_sqrt (1 + q)) by lra. rewrite Hs. lra. }
  lra.
Qed.

Lemma sq_ratio_nonneg (x r : R) : r <> 0 -> 0 <= x ^ 2 / r ^ 2.
Proof.
  intros Hr. apply Rmult_le_pos; [apply pow2_ge_0 |].
  left. apply Rinv_0_lt_compat.
  assert (H := pow2_ge_0 r).
  destruct H as [H | H]; [exact H |].
  exfalso. apply Hr. symmetry in H. apply Rsqr_0_uniq.
  unfold Rsqr. rewrite <- H. ring.
Qed.

Lemma sq_ratio_zero (x r : R) : r <> 0 -> x ^ 2 / r ^ 2 = 0 -> x = 0.
Proof.
  intros Hr H.
  assert (Hr2 : r ^ 2 <> 0) by (apply pow_nonzero; exact Hr).
  assert (Hx : x ^ 2 = 0).
  { apply (Rmult_eq_reg_r (/ r ^ 2)).
    - rewrite Rmult_0_l. exact H.
    - apply Rinv_neq_0_compat. exact Hr2. }
  apply Rsqr_0_uniq. unfold Rsqr. rewrite <- Hx. ring.
Qed.

Lemma sq_div (a r : R) : r <> 0 -> a ^ 2 / r ^ 2 = (a / r) ^ 2.
Proof. intros Hr. field. exact Hr. Qed.

Lemma waist_of_array_map (b : BeamSection.t) (zs : list R) :
  waist_of_array b zs = map (BeamSection.waist b) zs.
Proof.
  unfold waist_of_array, s_mul_arr, arr_sqrt, s_add_arr, arr_div_s, arr_sq,
    arr_sub_s.
  rewrite !map_map. reflexivity.
Qed.

(** C6: for a beam with positive wavelength and waist, the Rayleigh
    range is pi*waist^2/wavelength, the divergence is
    wavelength/(pi*waist), and the size at [z] is
    waist*sqrt(1 + ((z - position)/zR)^2), for a single [z] and entry by
    entry for an array of them; no divisor is zero and the square root
    is taken of a positive number. *)
Theorem beam_section_formulas (wavelength w position : R) :
  0 < wavelength -> 0 < w ->
  let b := BeamSection.init wavelength w position in
  BeamSection.zR b = PI * w ^ 2 / wavelength /\
  0 < BeamSection.zR b /\
  BeamSection.divergence b = wavelength / (PI * w) /\
  0 < PI * w /\
  (forall z : R,
      0 < 1 + (z - position) ^ 2 / BeamSection.zR b ^ 2 /\
      BeamSection.waist b z
      = w * sqrt (1 + ((z - position) / BeamSection.zR b) ^ 2)) /\
  (forall zs : list R,
      length (waist_of_array b zs) = length zs /\
      forall k : nat,
        (k < length zs)%nat ->
        nth k (waist_of_array b zs) 0
        = w * sqrt (1 + ((nth k zs 0 - position) / BeamSection.zR b) ^ 2)).
Proof.
  intros Hl Hw b.
  pose proof (zR_init_pos wavelength w position Hl Hw) as HzR. fold b in HzR.
  assert (Hr : BeamSection.zR b <> 0) by lra.
  assert (Hwaist : forall z, BeamSection.waist b z
            = w * sqrt (1 + ((z - position) / BeamSection.zR b) ^ 2)).
  { intros z. unfold BeamSection.waist.
    change (BeamSection.w0 b) with w. change (BeamSection.z0 b) with position.
    rewrite sq_div by exact Hr. reflexivity. }
  split; [reflexivity |]. split; [exact HzR |].
  split; [reflexivity |].
  split; [apply Rmult_lt_0_compat; [exact PI_RGT_0 | exact Hw] |].
  split.
  - intros z. split; [| apply Hwaist].
    pose proof (sq_ratio_nonneg (z - position) _ Hr). lra.
  - intros zs. rewrite waist_of_array_map. split; [apply length_map |].
    intros k Hk.
    rewrite (nth_indep _ 0 (BeamSection.waist b 0))
      by (rewrite length_map; exact Hk).
    rewrite map_nth. apply Hwaist.
Qed.

Lemma beam_section_formulas_witness :
  let b := BeamSection.init 1 1 0 in
  BeamSection.zR b = PI * 1 ^ 2 / 1 /\
  0 < BeamSection.zR b /\
  BeamSection.divergence b = 1 / (PI * 1) /\
  0 < PI * 1 /\
  (forall z : R,
      0 < 1 + (z - 0) ^ 2 / BeamSection.zR b ^ 2 /\
      BeamSection.waist b z
      = 1 * sqrt (1 + ((z - 0) / BeamSection.zR b) ^ 2)) /\
  (forall zs : list R,
      length (waist_of_array b zs) = length zs /\
      forall k : nat,
        (k < length zs)%nat ->
        nth k (waist_of_array b zs) 0
        = 1 * sqrt (1 + ((nth k zs 0 - 0) / BeamSection.zR b) ^ 2)).
Proof.
  apply (beam_section_formulas 1 1 0); lra.
Defined.

(** X23: the functions at the end of the module compute the quantities
    of the class: [rayleigh_range] and [RayleighR] the Rayleigh range of
    a section, [propagated_waist] its size at [z]. *)
Lemma module_functions_agree (wavelength w position z : R) :
  0 < wavelength -> 0 < w ->
  let b := BeamSection.init wavelength w position in
  rayleigh_range w wavelength = BeamSection.zR b /\
  RayleighR b = BeamSection.zR b /\
  propagated_waist w z (BeamSection.zR b) position = BeamSection.waist b z.
Proof.
  intros Hl Hw b.
  pose proof (zR_init_pos wavelength w position Hl Hw) as HzR. fold b in HzR.
  split; [reflexivity |]. split; [reflexivity |].
  unfold propagated_waist, BeamSection.waist.
  change (BeamSection.w0 b) with w. change (BeamSection.z0 b) with position.
  rewrite sq_div by lra. reflexivity.
Qed.

Lemma module_functions_agree_witness :
  let b := BeamSection.init 1 1 0 in
  rayleigh_range 1 1 = BeamSection.zR b /\
  RayleighR b = BeamSection.zR b /\
  propagated_waist 1 2 (BeamSection.zR b) 0 = BeamSection.waist b 2.
Proof.
  apply (module_functions_agree 1 1 0 2); lra.
Defined.

(** C8: for a beam with positive wavelength and waist, the size at any
    [z] is at least the waist, and equals it exactly at [z = z0]. *)
Theorem waist_global_minimum (wavelength w position z : R) :
  0 < wavelength -> 0 < w ->
  let b := BeamSection.init wavelength w position in
  BeamSection.waist b z >= BeamSection.w0 b /\
  (BeamSection.waist b z = BeamSection.w0 b <-> z = BeamSection.z0 b).
Proof.
  intros Hl Hw b.
  pose proof (zR_init_pos wavelength w position Hl Hw) as HzR.
  unfold BeamSection.waist. fold b in HzR.
  change (BeamSection.w0 b) with w. change (BeamSection.z0 b) with position.
  generalize dependent (BeamSection.zR b). clear b. intros r HzR.
  assert (Hr : r <> 0) by lra.
  pose proof (sq_ratio_nonneg (z - position) r Hr) as Hq.
  pose proof (sqrt_one_plus_ge_1 _ Hq) as Hs.
  split; [nra |].
  split.
  - intros Heq.
    assert (Hs1 : sqrt (1 + (z - position) ^ 2 / r ^ 2) = 1) by nra.
    apply sqrt_one_plus_eq_1 in Hs1; [| exact Hq].
    apply sq_ratio_zero in Hs1; [lra | exact Hr].
  - intros ->.
    replace ((position - position) ^ 2) with 0 by ring.
    unfold Rdiv. rewrite Rmult_0_l, Rplus_0_r, sqrt_1. ring.
Qed.

Lemma waist_global_minimum_witness :
  BeamSection.waist (BeamSection.init 1 1 0) 0 >= 1 /\
  (BeamSection.waist (BeamSection.init 1 1 0) 0 = 1 <-> 0 = 0).
Proof.
  apply (waist_global_minimum 1 1 0 0); lra.
Defined.

(** ** The class [BeamSection]: the lens transform *)

Lemma denominator_pos (d_in f zR : R) :
  f <> 0 -> zR <> 0 -> 0 < denominator d_in f zR.
Proof.
  intros Hf Hz. unfold denominator.
  assert (H1 : 0 <= (d_in / f - 1) ^ 2) by apply pow2_ge_0.
  assert (H2 : 0 < (zR / f) ^ 2).
  { assert (Hq : zR / f <> 0).
    { unfold Rdiv. apply Rmult_integral_contrapositive_currified;
        [exact Hz | apply Rinv_neq_0_compat; exact Hf]. }
    destruct (pow2_ge_0 (zR / f)) as [H | H]; [exact H |].
    exfalso. apply Hq. apply Rsqr_0_uniq. unfold Rsqr. rewrite H. ring. }
  lra.
Qed.

(** C1: for a beam with positive wavelength and waist and a lens of
    nonzero focal length, [transformByLens] returns the beam with the
    waist position z + d_out, the waist w/sqrt(denom) and the wavelength
    of the receiver, where d_in, denom and d_out are the quantities of
    the specification; denom is positive, so that no divisor is zero,
    and the result is again a beam with positive waist. *)
Theorem transformByLens_formula (wavelength w position f z : R) :
  0 < wavelength -> 0 < w -> f <> 0 ->
  let b := BeamSection.init wavelength w position in
  let d_in := z - position in
  let denom := (d_in / f - 1) ^ 2 + (BeamSection.zR b / f) ^ 2 in
  let d_out := f * (1 + (d_in / f - 1) / denom) in
  0 < denom /\
  0 < sqrt denom /\
  BeamSection.transformByLens b f z
  = BeamSection.init wavelength (w / sqrt denom) (z + d_out) /\
  BeamSection.z0 (BeamSection.transformByLens b f z) = z + d_out /\
  BeamSection.w0 (BeamSection.transformByLens b f z) = w / sqrt denom /\
  BeamSection.lambd (BeamSection.transformByLens b f z) = wavelength /\
  0 < BeamSection.w0 (BeamSection.transformByLens b f z).
Proof.
  intros Hl Hw Hf b d_in denom d_out.
  pose proof (zR_init_pos wavelength w position Hl Hw) as HzR. fold b in HzR.
  assert (Hd : 0 < denom).
  { apply (denominator_pos d_in f (BeamSection.zR b)); [exact Hf | lra]. }
  assert (Hs : 0 < sqrt denom) by (apply sqrt_lt_R0; exact Hd).
  repeat split; try assumption.
  change (0 < w / sqrt denom). apply Rdiv_lt_0_compat; assumption.
Qed.

Lemma transformByLens_formula_witness :
  let b := BeamSection.init 1 1 0 in
  let d_in := 2 - 0 in
  let denom := (d_in / 1 - 1) ^ 2 + (BeamSection.zR b / 1) ^ 2 in
  let d_out := 1 * (1 + (d_in / 1 - 1) / denom) in
  0 < denom /\
  0 < sqrt denom /\
  BeamSection.transformByLens b 1 2
  = BeamSection.init 1 (1 / sqrt denom) (2 + d_out) /\
  BeamSection.z0 (BeamSection.transformByLens b 1 2) = 2 + d_out /\
  BeamSection.w0 (BeamSection.transformByLens b 1 2) = 1 / sqrt denom /\
  BeamSection.lambd (BeamSection.transformByLens b 1 2) = 1 /\
  0 < BeamSection.w0 (BeamSection.transformByLens b 1 2).
Proof.
  apply (transformByLens_formula 1 1 0 1 2); lra.
Defined.

(** At the plane of the lens the beam has the same size on both sides:
    the section after the lens and the section before it agree at the
    lens position. *)
Lemma size_identity (d_in f zR D : R) :
  f <> 0 -> zR <> 0 -> D <> 0 ->
  D = (d_in / f - 1) ^ 2 + (zR / f) ^ 2 ->
  (1 + (f * (1 + (d_in / f - 1) / D)) ^ 2 / (zR / D) ^ 2) / D
  = 1 + d_in ^ 2 / zR ^ 2.
Proof.
  intros Hf Hz HD HDe.
  field_simplify_eq; [| auto].
  assert (HD2 : D * f ^ 2 = (d_in - f) ^ 2 + zR ^ 2).
  { rewrite HDe. field. exact Hf. }
  nra.
Qed.

Lemma lens_preserves_size (wavelength w position f z : R) :
  0 < wavelength -> 0 < w -> f <> 0 ->
  BeamSection.waist
    (BeamSection.transformByLens (BeamSection.init wavelength w position) f z)
    z
  = BeamSection.waist (BeamSection.init wavelength w position) z.
Proof.
  intros Hl Hw Hf.
  pose proof (zR_init_pos wavelength w position Hl Hw) as HzR.
  unfold BeamSection.transformByLens, BeamSection.waist.
  set (b := BeamSection.init wavelength w position) in *.
  change (BeamSection.z0 b) with position.
  change (BeamSection.w0 b) with w.
  change (BeamSection.lambd b) with wavelength.
  set (r := BeamSection.zR b) in *.
  assert (Hr : r = PI * w ^ 2 / wavelength) by reflexivity.
  clearbody r. clear b.
  set (D := ((z - position) / f - 1) ^ 2 + (r / f) ^ 2).
  assert (HD : 0 < D).
  { apply (denominator_pos (z - position) f r); [exact Hf | lra]. }
  assert (Hs : 0 < sqrt D) by (apply sqrt_lt_R0; exact HD).
  assert (Hss : sqrt D ^ 2 = D).
  { simpl. rewrite Rmult_1_r. apply sqrt_sqrt. lra. }
  set (d_out := f * (1 + ((z - position) / f - 1) / D)).
  unfold BeamSection.init.
  cbn [BeamSection.w0 BeamSection.z0 BeamSection.zR BeamSection.lambd].
  assert (HzR' : PI * (w / sqrt D) ^ 2 / wavelength = r / D).
  { rewrite Hr. replace ((w / sqrt D) ^ 2) with (w ^ 2 / sqrt D ^ 2)
      by (field; lra).
    rewrite Hss. field. split; lra. }
  rewrite HzR'.
  replace (z - (z + d_out)) with (- d_out) by ring.
  replace ((- d_out) ^ 2) with (d_out ^ 2) by ring.
  set (X := 1 + d_out ^ 2 / (r / D) ^ 2).
  replace (w / sqrt D * sqrt X) with (w * (sqrt X / sqrt D))
    by (field; lra).
  rewrite <- sqrt_div_alt by exact HD.
  f_equal. f_equal.
  unfold X, d_out.
  apply size_identity; try lra. reflexivity.
Qed.

(** A waist in the front focal plane of the lens ([z - z0 = f], [f > 0])
    is imaged into the back focal plane, with waist
    [f*wavelength/(pi*w)]. *)
Lemma front_focal_plane (wavelength w position f : R) :
  0 < wavelength -> 0 < w -> 0 < f ->
  BeamSection.parameters
    (BeamSection.transformByLens
       (BeamSection.init wavelength w position) f (position + f))
  = (wavelength, f * wavelength / (PI * w), position + f + f).
Proof.
  intros Hl Hw Hf.
  pose proof (zR_init_pos wavelength w position Hl Hw) as HzR.
  pose proof PI_RGT_0 as Hpi.
  unfold BeamSection.transformByLens, BeamSection.parameters.
  set (b := BeamSection.init wavelength w position) in *.
  change (BeamSection.z0 b) with position.
  change (BeamSection.w0 b) with w.
  change (BeamSection.lambd b) with wavelength.
  set (r := BeamSection.zR b) in *.
  assert (Hr : r = PI * w ^ 2 / wavelength) by reflexivity.
  clearbody r. clear b.
  unfold BeamSection.init.
  cbn [BeamSection.w0 BeamSection.z0 BeamSection.lambd].
  replace ((position + f - position) / f - 1) with 0 by (field; lra).
  replace (0 ^ 2 + (r / f) ^ 2) with ((r / f) ^ 2) by ring.
  assert (Hq : 0 < r / f) by (apply Rdiv_lt_0_compat; lra).
  replace ((r / f) ^ 2) with (Rsqr (r / f)) by (unfold Rsqr; ring).
  rewrite sqrt_Rsqr by lra.
  f_equal; [f_equal |].
  - rewrite Hr. field. repeat split; lra.
  - unfold Rdiv at 1. rewrite Rmult_0_l. ring.
Qed.

(** The example of the specification: wavelength 532e-9, waist 1e-3 at
    0, lens of focal length 0.1 at 0.1. *)
Example fourier_lens :
  BeamSection.parameters
    (BeamSection.transformByLens
       (BeamSection.init (532 / 1000000000) (1 / 1000) 0) (1 / 10) (1 / 10))
  = (532 / 1000000000,
     (1 / 10) * (532 / 1000000000) / (PI * (1 / 1000)),
     2 / 10).
Proof.
  replace (1 / 10) with (0 + 1 / 10) at 2 by ring.
  rewrite front_focal_plane by lra.
  f_equal. lra.
Qed.

(** ** Sorting by [argsort] *)

Lemma insert_index_perm (a : list R) (i : nat) (l : list nat) :
  Permutation (i :: l) (insert_index a i l).
Proof.
  induction l as [| j l IH]; simpl; [reflexivity |].
  destruct (Rleb (nth i a 0) (nth j a 0)); [reflexivity |].
  rewrite perm_swap. apply perm_skip. exact IH.
Qed.

Lemma fold_insert_perm (a : list R) (l : list nat) :
  Permutation l (fold_right (insert_index a) [] l).
Proof.
  induction l as [| i l IH]; simpl; [reflexivity |].
  rewrite <- insert_index_perm. apply perm_skip. exact IH.
Qed.

Lemma argsort_perm (a : list R) :
  Permutation (seq 0 (length a)) (argsort a).
Proof. apply fold_insert_perm. Qed.

Lemma argsort_length (a : list R) : length (argsort a) = length a.
Proof.
  rewrite <- (Permutation_length (argsort_perm a)). apply length_seq.
Qed.

Lemma insert_index_sorted (a : list R) (i : nat) (l : list nat) :
  keys_sorted a l -> keys_sorted a (insert_index a i l).
Proof.
  unfold keys_sorted, take_indices.
  induction l as [| j l IH]; simpl; intros Hs.
  - constructor; constructor.
  - destruct (Rleb (nth i a 0) (nth j a 0)) eqn:E.
    + apply Rleb_true_iff in E. simpl. constructor; [exact Hs |].
      constructor. exact E.
    + apply Rleb_false_iff in E. simpl.
      inversion Hs as [| x xs Hs' Hhd]; subst.
      constructor; [apply IH; exact Hs' |].
      destruct l as [| k l]; simpl.
      * constructor. lra.
      * destruct (Rleb (nth i a 0) (nth k a 0)); simpl; constructor.
        -- lra.
        -- inversion Hhd; subst. assumption.
Qed.

Lemma argsort_sorted (a : list R) :
  Sorted Rle (take_indices 0 a (argsort a)).
Proof.
  unfold argsort. generalize (seq 0 (length a)) as l.
  induction l as [| i l IH]; simpl.
  - constructor.
  - apply insert_index_sorted. exact IH.
Qed.

Lemma take_indices_seq {A : Type} (d : A) (a : list A) :
  take_indices d a (seq 0 (length a)) = a.
Proof.
  unfold take_indices.
  apply nth_ext with (d := d) (d' := d).
  - rewrite length_map, length_seq. reflexivity.
  - intros n Hn. rewrite length_map, length_seq in Hn.
    rewrite (nth_indep _ d (nth 0 a d)) by (rewrite length_map, length_seq; exact Hn).
    rewrite (map_nth (fun i => nth i a d) (seq 0 (length a)) 0%nat n).
    rewrite seq_nth by exact Hn. reflexivity.
Qed.

Lemma take_argsort_perm {A : Type} (d : A) (a : list A) (keys : list R) :
  length keys = length a ->
  Permutation a (take_indices d a (argsort keys)).
Proof.
  intros Hlen.
  rewrite <- (take_indices_seq d a) at 1.
  unfold take_indices. apply Permutation_map.
  rewrite <- Hlen. apply argsort_perm.
Qed.

Lemma take_indices_length {A : Type} (d : A) (a : list A) (idx : list nat) :
  length (take_indices d a idx) = length idx.
Proof. apply length_map. Qed.

Lemma argsort_two_ascending (x y : R) : x <= y -> argsort [x; y] = [0; 1]%nat.
Proof.
  intros H. unfold argsort. simpl.
  rewrite (proj2 (Rleb_true_iff x y) H). reflexivity.
Qed.

Lemma argsort_two_descending (x y : R) : y < x -> argsort [x; y] = [1; 0]%nat.
Proof.
  intros H. unfold argsort. simpl.
  rewrite (proj2 (Rleb_false_iff x y) H). reflexivity.
Qed.

Lemma sorted_nth_le (ps : list R) :
  Sorted Rle ps ->
  forall i j : nat,
    (i <= j)%nat -> (j < length ps)%nat -> nth i ps 0 <= nth j ps 0.
Proof.
  intros Hs. apply Sorted_StronglySorted in Hs;
    [| intros x y z; apply Rle_trans].
  induction Hs as [| p ps Hs IH Hall]; intros i j Hij Hj; [simpl in Hj; lia |].
  destruct j as [| j].
  - replace i with 0%nat by lia. lra.
  - destruct i as [| i].
    + simpl. rewrite Forall_forall in Hall. apply Hall. apply nth_In.
      simpl in Hj. lia.
    + simpl. apply IH; [lia | simpl in Hj; lia].
Qed.

Lemma sorted_distinct_lt (ps : list R) (i : nat) :
  Sorted Rle ps -> NoDup ps -> (S i < length ps)%nat ->
  nth i ps 0 < nth (S i) ps 0.
Proof.
  intros Hs Hnd Hi.
  pose proof (sorted_nth_le ps Hs i (S i) ltac:(lia) Hi) as Hle.
  destruct Hle as [Hlt | Heq]; [exact Hlt | exfalso].
  assert (i = S i); [| lia].
  apply (proj1 (NoDup_nth ps 0) Hnd); [lia | exact Hi | exact Heq].
Qed.

(** ** The constructor: the check of the waist position *)

Lemma all_perm (a b : list R) : Permutation a b -> all a = all b.
Proof.
  unfold all. induction 1; simpl; try congruence.
  - destruct (negb (Reqb y 0)), (negb (Reqb x 0)); reflexivity.
Qed.

Lemma all_true_iff (a : list R) :
  all a = true <-> (forall p, In p a -> p <> 0).
Proof.
  unfold all. rewrite forallb_forall. split; intros H p Hp.
  - apply Reqb_false_iff. apply negb_true_iff. apply H. exact Hp.
  - apply negb_true_iff. apply Reqb_false_iff. apply H. exact Hp.
Qed.

Lemma all_false_iff (a : list R) :
  all a = false <-> In 0 a.
Proof.
  unfold all. induction a as [| x a IH]; simpl.
  - split; [discriminate | tauto].
  - destruct (Reqb x 0) eqn:E; simpl.
    + apply Reqb_true_iff in E. split; auto.
    + apply Reqb_false_iff in E. rewrite IH. split; [auto |].
      intros [H | H]; [congruence | exact H].
Qed.

Lemma sorted_positions_perm (lenses : list (R * R)) :
  Permutation (map snd lenses)
    (take_indices 0 (map snd lenses) (argsort (map snd lenses))).
Proof. apply take_argsort_perm. reflexivity. Qed.

Lemma init_cases (params : R * R * R) (lenses : list (R * R)) :
  (Rgtb (snd params) (R_of_bool (all (map snd lenses))) = true /\
   BeamPropagation.init params lenses
   = inl (Exception BeamPropagation.waist_message)) \/
  (Rgtb (snd params) (R_of_bool (all (map snd lenses))) = false /\
   exists c, BeamPropagation.init params lenses = inr c).
Proof.
  unfold BeamPropagation.init.
  rewrite <- (all_perm _ _ (sorted_positions_perm lenses)).
  destruct (Rgtb (snd params) (R_of_bool (all (map snd lenses)))).
  - left. split; reflexivity.
  - right. split; [reflexivity |]. eexists. reflexivity.
Qed.

Lemma init_accepts (params : R * R * R) (lenses : list (R * R)) :
  snd params <= R_of_bool (all (map snd lenses)) ->
  exists c, BeamPropagation.init params lenses = inr c.
Proof.
  intros Hle.
  destruct (init_cases params lenses) as [[Hc _] | [_ H]]; [| exact H].
  apply Rgtb_true_iff in Hc. lra.
Qed.

Lemma init_refuses (params : R * R * R) (lenses : list (R * R)) :
  R_of_bool (all (map snd lenses)) < snd params ->
  BeamPropagation.init params lenses
  = inl (Exception BeamPropagation.waist_message).
Proof.
  intros Hlt.
  destruct (init_cases params lenses) as [[_ H] | [Hc _]]; [exact H |].
  apply Rgtb_false_iff in Hc. lra.
Qed.

(** Settles the comparison of the waist position with the reduced
    position array when both are numerals. *)
Ltac waist_check :=
  unfold all; simpl; decide_cmp; simpl; lra.

(** C10: the constructor raises exactly when the waist position exceeds
    the number the reduced position array stands for: 1 when every lens
    position is nonzero, 0 when some lens position is 0.  A waist at 0.9
    with lenses at 0.5 and 2.0 is accepted. *)
Theorem init_raises_iff :
  (forall (params : R * R * R) (lenses : list (R * R)),
      BeamPropagation.init params lenses
      = inl (Exception BeamPropagation.waist_message)
      <->
      ((forall p, In p (map snd lenses) -> p <> 0) /\ snd params > 1) \/
      (In 0 (map snd lenses) /\ snd params > 0)) /\
  (forall wavelength w f1 f2 : R,
      exists c,
        BeamPropagation.init (wavelength, w, 9 / 10)
          [(f1, 5 / 10); (f2, 2)] = inr c).
Proof.
  split.
  - intros params lenses.
    destruct (init_cases params lenses) as [[Hc Hi] | [Hc [c Hi]]];
      rewrite Hi; unfold Rgt.
    + apply Rgtb_true_iff in Hc.
      split; [intros _ | reflexivity].
      destruct (all (map snd lenses)) eqn:Ha; simpl in Hc.
      * left. split; [apply all_true_iff; exact Ha | exact Hc].
      * right. split; [apply all_false_iff; exact Ha | exact Hc].
    + apply Rgtb_false_iff in Hc.
      split; [discriminate |].
      intros [[Ha Hz] | [Ha Hz]]; exfalso.
      * apply all_true_iff in Ha. rewrite Ha in Hc. simpl in Hc. lra.
      * apply all_false_iff in Ha. rewrite Ha in Hc. simpl in Hc. lra.
  - intros wavelength w f1 f2. apply init_accepts. waist_check.
Qed.

(** C3, the constructor at two inputs: a waist at 1.0 behind a single
    lens at 0.5 raises nothing, and a waist at 2 in front of a single
    lens at 3 raises the exception. *)
Theorem init_waist_behind_lens_accepted :
  (forall wavelength w f : R,
      exists c,
        BeamPropagation.init (wavelength, w, 1) [(f, 5 / 10)] = inr c) /\
  (forall wavelength w f : R,
      BeamPropagation.init (wavelength, w, 2) [(f, 3)]
      = inl (Exception BeamPropagation.waist_message)).
Proof.
  split; intros wavelength w f.
  - apply init_accepts. waist_check.
  - apply init_refuses. waist_check.
Qed.

(** ** The constructor: the loop that builds [beamParams] *)

Lemma set_nth_app {A : Type} (pre : list A) (x y v : A) (l : list A) :
  set_nth (length pre + 1) v (pre ++ x :: y :: l) = pre ++ x :: v :: l.
Proof.
  induction pre as [| a pre IH]; simpl; [reflexivity |].
  rewrite IH. reflexivity.
Qed.

Lemma nth_app_next {A : Type} (pre : list A) (x v d : A) (l : list A) :
  nth (length pre + 1) (pre ++ x :: v :: l) d = v.
Proof.
  induction pre as [| a pre IH]; simpl; [reflexivity | exact IH].
Qed.

Lemma loop_body_step (fs ps : list R) (pre : list (R * R * R))
  (parms v : R * R * R) (l : list (R * R * R)) :
  BeamPropagation.loop_body fs ps (pre ++ parms :: v :: l, parms) (length pre)
  = (pre ++ parms
       :: next_column parms (nth (length pre) fs 0) (nth (length pre) ps 0)
       :: l,
     next_column parms (nth (length pre) fs 0) (nth (length pre) ps 0)).
Proof.
  unfold BeamPropagation.loop_body, next_column.
  rewrite set_nth_app, nth_app_next. reflexivity.
Qed.

Lemma loop_invariant (fs ps : list R) (n : nat) :
  forall (s : nat) (pre : list (R * R * R)) (parms : R * R * R),
    length pre = s ->
    fst (fold_left (BeamPropagation.loop_body fs ps) (seq s n)
           (pre ++ parms :: repeat (0, 0, 0) n, parms))
    = pre ++ parms :: columns_from fs ps parms s n.
Proof.
  induction n as [| n IH]; intros s pre parms Hs; [reflexivity |].
  subst s.
  change (seq (length pre) (S n))
    with (length pre :: seq (S (length pre)) n).
  change (repeat (0, 0, 0) (S n))
    with ((0, 0, 0) :: repeat (0, 0, 0) n : list (R * R * R)).
  cbn [fold_left]. rewrite loop_body_step.
  set (parms' := next_column parms (nth (length pre) fs 0)
                   (nth (length pre) ps 0)).
  change (pre ++ parms :: parms' :: repeat (0, 0, 0) n)
    with (pre ++ [parms] ++ parms' :: repeat (0, 0, 0) n).
  rewrite app_assoc.
  rewrite (IH (S (length pre)) (pre ++ [parms]) parms').
  - rewrite <- app_assoc. reflexivity.
  - rewrite length_app. simpl. lia.
Qed.

Lemma columns_from_length (fs ps : list R) (n : nat) :
  forall parms s, length (columns_from fs ps parms s n) = n.
Proof.
  induction n as [| n IH]; intros; simpl; [reflexivity |].
  rewrite IH. reflexivity.
Qed.

Lemma columns_from_step (fs ps : list R) (n : nat) :
  forall (i s : nat) (parms : R * R * R),
    (i < n)%nat ->
    nth (S i) (parms :: columns_from fs ps parms s n) (0, 0, 0)
    = next_column (nth i (parms :: columns_from fs ps parms s n) (0, 0, 0))
        (nth (s + i) fs 0) (nth (s + i) ps 0).
Proof.
  induction n as [| n IH]; intros i s parms Hi; [lia |].
  destruct i as [| i].
  - simpl. rewrite Nat.add_0_r. reflexivity.
  - change (nth (S (S i)) (parms :: columns_from fs ps parms s (S n)) (0, 0, 0))
      with (nth (S i)
              (next_column parms (nth s fs 0) (nth s ps 0)
               :: columns_from fs ps
                    (next_column parms (nth s fs 0) (nth s ps 0)) (S s) n)
              (0, 0, 0)).
    rewrite IH by lia.
    replace (S s + i)%nat with (s + S i)%nat by lia.
    reflexivity.
Qed.

(** The attributes of a constructed object, read off [__init__]. *)
Lemma init_fields (params : R * R * R) (lenses : list (R * R))
  (c : BeamPropagation.t) :
  BeamPropagation.init params lenses = inr c ->
  let ps := take_indices 0 (map snd lenses) (argsort (map snd lenses)) in
  let fs := take_indices 0 (map fst lenses) (argsort (map snd lenses)) in
  BeamPropagation.lensPositions c = ps /\
  BeamPropagation.lensFocals c = fs /\
  BeamPropagation.z0 c = snd params /\
  BeamPropagation.w0 c = snd (fst params) /\
  BeamPropagation.amountElements c = length lenses /\
  BeamPropagation.amountSections c = (length lenses + 1)%nat /\
  BeamPropagation.beamsLimits c
  = (NegInf :: map Fin ps, map Fin ps ++ [PosInf]) /\
  BeamPropagation.beamParams c
  = params :: columns_from fs ps params 0 (length lenses).
Proof.
  unfold BeamPropagation.init.
  destruct (Rgtb _ _); [discriminate |].
  intros H. injection H as <-. simpl.
  rewrite take_indices_length, argsort_length, length_map.
  repeat split; try reflexivity.
  rewrite Nat.add_1_r. simpl.
  apply (loop_invariant _ _ (length lenses) 0%nat [] params).
  reflexivity.
Qed.

Lemma BeamSection_of_parameters (b : BeamSection.t) (f z : R) :
  BeamSection_of
    (BeamSection.parameters (BeamSection.transformByLens b f z))
  = BeamSection.transformByLens b f z.
Proof. reflexivity. Qed.




(** Lenses given out of order are put in order of position, each focal
    length staying with its position. *)
Example init_sorts_lenses (wavelength w f1 f2 : R) (c : BeamPropagation.t) :
  BeamPropagation.init (wavelength, w, 0) [(f2, 5 / 10); (f1, 2 / 10)]
  = inr c ->
  BeamPropagation.lensPositions c = [2 / 10; 5 / 10] /\
  BeamPropagation.lensFocals c = [f1; f2].
Proof.
  intros Hc.
  destruct (init_fields _ _ c Hc) as (Hps & Hfs & _).
  rewrite Hps, Hfs.
  change (map snd [(f2, 5 / 10); (f1, 2 / 10)]) with [5 / 10; 2 / 10].
  rewrite argsort_two_descending by lra.
  split; reflexivity.
Qed.

(** ** The constructor: a zero denominator *)



(** ** Intervals cut by a sorted list of lens positions *)

Section Cuts.

(** [above l]: the coordinate lies beyond the limit [l], for one of
    the two comparisons the program uses ([z > l] or [z >= l]). *)
Variable above : limit -> bool.
Hypothesis above_PosInf : above PosInf = false.
Hypothesis above_mono :
  forall x y : R, x <= y -> above (Fin y) = true -> above (Fin x) = true.

Lemma sorted_above_tail (p : R) (ps : list R) (k : nat) :
  Sorted Rle (p :: ps) -> (k < length (p :: ps))%nat ->
  above (Fin p) = false ->
  above (nth k (map Fin (p :: ps)) (Fin 0)) = false.
Proof using above_mono.
  intros Hs Hk Hp.
  apply Sorted_StronglySorted in Hs; [| intros x y z; apply Rle_trans].
  change (Fin 0) with (Fin (0 : R)). rewrite map_nth.
  destruct (above (Fin (nth k (p :: ps) 0))) eqn:E; [| reflexivity].
  rewrite <- Hp. symmetry. apply (above_mono p (nth k (p :: ps) 0)); [| exact E].
  destruct k as [| k]; simpl; [lra |].
  inversion Hs as [| x xs _ Hall]; subst.
  rewrite Forall_forall in Hall. apply Hall. apply nth_In.
  simpl in Hk. lia.
Qed.

Lemma cut_exists_unique (ps : list R) :
  forall lo : limit,
    Sorted Rle ps -> above lo = true ->
    exists j : nat,
      (j <= length ps)%nat /\
      between above (limit_rows lo ps) j = true /\
      forall k : nat,
        (k <= length ps)%nat ->
        between above (limit_rows lo ps) k = true -> k = j.
Proof using above_PosInf above_mono.
  induction ps as [| p ps IH]; intros lo Hs Hlo.
  - exists 0%nat. unfold between; simpl.
    rewrite Hlo, above_PosInf. repeat split; auto. intros k Hk _. lia.
  - destruct (above (Fin p)) eqn:Hp.
    + assert (Hs' : Sorted Rle ps) by (inversion Hs; assumption).
      destruct (IH (Fin p) Hs' Hp) as [j [Hj [Hin Huniq]]].
      exists (S j). split; [simpl; lia |]. split; [exact Hin |].
      intros [| k] Hk Hb.
      * unfold between in Hb; simpl in Hb. rewrite Hp in Hb.
        rewrite andb_false_r in Hb. discriminate.
      * f_equal. apply Huniq; [simpl in Hk; lia | exact Hb].
    + exists 0%nat. split; [lia |]. split.
      * unfold between; simpl. rewrite Hlo, Hp. reflexivity.
      * intros [| k] Hk Hb; [reflexivity |]. exfalso.
        unfold between in Hb.
        change (nth (S k) (fst (limit_rows lo (p :: ps))) (Fin 0))
          with (nth k (map Fin (p :: ps)) (Fin 0)) in Hb.
        rewrite (sorted_above_tail p ps k Hs) in Hb;
          [discriminate | simpl in *; lia | exact Hp].
Qed.

(** In every column the upper limit is not below the lower one. *)
Lemma column_ordered (ps : list R) :
  forall lo : limit,
    Sorted Rle ps ->
    (forall p, nth_error ps 0 = Some p ->
               above (Fin p) = true -> above lo = true) ->
    forall j : nat,
      (j <= length ps)%nat ->
      above (nth j (snd (limit_rows lo ps)) (Fin 0)) = true ->
      above (nth j (fst (limit_rows lo ps)) (Fin 0)) = true.
Proof using above_PosInf above_mono.
  induction ps as [| p ps IH]; intros lo Hs Hhd j Hj Hup.
  - simpl in Hj. replace j with 0%nat in * by lia. simpl in Hup.
    rewrite above_PosInf in Hup. discriminate.
  - destruct j as [| j].
    + simpl in *. apply (Hhd p); [reflexivity | exact Hup].
    + apply (IH (Fin p)); [inversion Hs; assumption | | simpl in Hj; lia | exact Hup].
      intros q Hq Hab. destruct ps as [| q' ps]; [discriminate |].
      simpl in Hq. injection Hq as ->.
      apply (above_mono p q); [| exact Hab].
      inversion Hs as [| x xs _ Hrel]; subst. inversion Hrel; subst. assumption.
Qed.

End Cuts.

Lemma gt_limit_mono (z x y : R) :
  x <= y -> gt_limit z (Fin y) = true -> gt_limit z (Fin x) = true.
Proof.
  simpl. intros Hxy H. apply Rgtb_true_iff in H. apply Rgtb_true_iff. lra.
Qed.

Lemma ge_limit_mono (z x y : R) :
  x <= y -> ge_limit z (Fin y) = true -> ge_limit z (Fin x) = true.
Proof.
  simpl. intros Hxy H. apply Rgeb_true_iff in H. apply Rgeb_true_iff. lra.
Qed.

Lemma le_limit_not_gt (z : R) (l : limit) :
  le_limit z l = negb (gt_limit z l).
Proof.
  destruct l; simpl; try reflexivity.
  unfold Rgtb. destruct (Rleb z r) eqn:E.
  - apply Rleb_true_iff in E. symmetry. apply negb_true_iff.
    apply Rltb_false_iff. exact E.
  - apply Rleb_false_iff in E. symmetry. apply negb_false_iff.
    apply Rltb_true_iff. exact E.
Qed.

Lemma interval_contains_between (c : BeamPropagation.t) (z : R) (j : nat) :
  interval_contains c z j
  = between (gt_limit z) (BeamPropagation.beamsLimits c) j.
Proof.
  unfold interval_contains, between. rewrite le_limit_not_gt. reflexivity.
Qed.

Lemma nth_upper (ps : list R) (j : nat) :
  (j < length ps)%nat ->
  nth j (map Fin ps ++ [PosInf]) (Fin 0) = Fin (nth j ps 0).
Proof.
  intros Hj. rewrite app_nth1 by (rewrite length_map; exact Hj).
  apply (map_nth Fin ps 0 j).
Qed.

Lemma nth_lower (ps : list R) (j : nat) :
  (j < length ps)%nat ->
  nth (S j) (NegInf :: map Fin ps) (Fin 0) = Fin (nth j ps 0).
Proof. intros Hj. simpl. apply (map_nth Fin ps 0 j). Qed.

(** Read as (lower, upper], the intervals of a constructed object
    contain every coordinate exactly once. *)
Lemma beamsLimits_cover (params : R * R * R) (lenses : list (R * R))
  (c : BeamPropagation.t) (z : R) :
  BeamPropagation.init params lenses = inr c ->
  exists j : nat,
    (j < BeamPropagation.amountSections c)%nat /\
    interval_contains c z j = true /\
    forall k : nat,
      (k < BeamPropagation.amountSections c)%nat ->
      interval_contains c z k = true -> k = j.
Proof.
  intros Hinit.
  destruct (init_fields params lenses c Hinit)
    as (Hps & _ & _ & _ & _ & HS & Hbl & _).
  assert (Hlen : length (BeamPropagation.lensPositions c) = length lenses).
  { rewrite Hps, take_indices_length, argsort_length. apply length_map. }
  rewrite <- Hps in Hbl.
  assert (Hsorted : Sorted Rle (BeamPropagation.lensPositions c))
    by (rewrite Hps; apply argsort_sorted).
  destruct (cut_exists_unique (gt_limit z) eq_refl (gt_limit_mono z)
              (BeamPropagation.lensPositions c) NegInf Hsorted eq_refl)
    as [j [Hj [Hin Huniq]]].
  exists j. split; [lia |].
  split.
  - rewrite interval_contains_between, Hbl. exact Hin.
  - intros k Hk Hb. apply Huniq; [lia |].
    rewrite interval_contains_between, Hbl in Hb. exact Hb.
Qed.

(** C4: a constructed object with N lenses has N+1 sections and N+1
    intervals; the lower limits are -inf followed by the sorted lens
    positions, the upper limits the sorted lens positions followed by
    +inf; read as (lower, upper], the intervals contain every real
    coordinate exactly once. *)
Theorem beamsLimits_partition (params : R * R * R) (lenses : list (R * R))
  (c : BeamPropagation.t) :
  BeamPropagation.init params lenses = inr c ->
  BeamPropagation.amountSections c = (length lenses + 1)%nat /\
  length (BeamPropagation.beamParams c) = (length lenses + 1)%nat /\
  length (fst (BeamPropagation.beamsLimits c)) = (length lenses + 1)%nat /\
  length (snd (BeamPropagation.beamsLimits c)) = (length lenses + 1)%nat /\
  fst (BeamPropagation.beamsLimits c)
  = NegInf :: map Fin (BeamPropagation.lensPositions c) /\
  snd (BeamPropagation.beamsLimits c)
  = map Fin (BeamPropagation.lensPositions c) ++ [PosInf] /\
  forall z : R,
    exists j : nat,
      (j < BeamPropagation.amountSections c)%nat /\
      interval_contains c z j = true /\
      forall k : nat,
        (k < BeamPropagation.amountSections c)%nat ->
        interval_contains c z k = true -> k = j.
Proof.
  intros Hinit.
  destruct (init_fields params lenses c Hinit)
    as (Hps & _ & _ & _ & _ & HS & Hbl & Hbp).
  assert (Hlen : length (BeamPropagation.lensPositions c) = length lenses).
  { rewrite Hps, take_indices_length, argsort_length. apply length_map. }
  rewrite <- Hps in Hbl.
  rewrite HS, Hbp, Hbl. simpl fst. simpl snd.
  split; [reflexivity |].
  split; [simpl; rewrite columns_from_length; lia |].
  split; [simpl; rewrite length_map; lia |].
  split; [rewrite length_app, length_map; simpl; lia |].
  split; [reflexivity |]. split; [reflexivity |].
  intros z. rewrite <- HS. apply (beamsLimits_cover params lenses c z Hinit).
Qed.

(** The example of the specification: lenses at 0.2 and 0.5 give three
    sections and the limits -inf, 0.2, 0.5 and 0.2, 0.5, +inf. *)
Lemma beamsLimits_partition_witness :
  exists c : BeamPropagation.t,
    BeamPropagation.init (6328 / 10000000000, 5 / 10000, 0)
      [(5 / 100, 2 / 10); (1 / 10, 5 / 10)] = inr c /\
    BeamPropagation.beamsLimits c
    = ([NegInf; Fin (2 / 10); Fin (5 / 10)],
       [Fin (2 / 10); Fin (5 / 10); PosInf]) /\
    nth 0 (BeamPropagation.beamParams c) (0, 0, 0)
    = (6328 / 10000000000, 5 / 10000, 0) /\
    BeamPropagation.amountSections c = 3%nat /\
    length (BeamPropagation.beamParams c) = 3%nat /\
    length (fst (BeamPropagation.beamsLimits c)) = 3%nat /\
    length (snd (BeamPropagation.beamsLimits c)) = 3%nat /\
    fst (BeamPropagation.beamsLimits c)
    = NegInf :: map Fin (BeamPropagation.lensPositions c) /\
    snd (BeamPropagation.beamsLimits c)
    = map Fin (BeamPropagation.lensPositions c) ++ [PosInf] /\
    forall z : R,
      exists j : nat,
        (j < BeamPropagation.amountSections c)%nat /\
        interval_contains c z j = true /\
        forall k : nat,
          (k < BeamPropagation.amountSections c)%nat ->
          interval_contains c z k = true -> k = j.
Proof.
  set (params := (6328 / 10000000000, 5 / 10000, 0)).
  set (lenses := [(5 / 100, 2 / 10); (1 / 10, 5 / 10)]).
  destruct (init_accepts params lenses) as [c Hc];
    [waist_check |].
  exists c. split; [exact Hc |].
  destruct (init_fields params lenses c Hc)
    as (_ & _ & _ & _ & _ & _ & Hbl & Hbp).
  split.
  { rewrite Hbl. unfold lenses.
    change (map snd [(5 / 100, 2 / 10); (1 / 10, 5 / 10)])
      with [2 / 10; 5 / 10].
    rewrite argsort_two_ascending by lra. reflexivity. }
  split; [rewrite Hbp; reflexivity |].
  apply (beamsLimits_partition params lenses c Hc).
Defined.

(** ** The section [waist] selects *)

Lemma filter_seq_none (f : nat -> bool) (n : nat) :
  forall s : nat,
    (forall k, (s <= k < s + n)%nat -> f k = false) ->
    filter f (seq s n) = [].
Proof.
  induction n as [| n IH]; intros s H; simpl; [reflexivity |].
  rewrite (H s) by lia. apply IH. intros k Hk. apply H. lia.
Qed.

Lemma filter_seq_unique (f : nat -> bool) (n : nat) :
  forall s j : nat,
    (s <= j < s + n)%nat -> f j = true ->
    (forall k, (s <= k < s + n)%nat -> f k = true -> k = j) ->
    filter f (seq s n) = [j].
Proof.
  induction n as [| n IH]; intros s j Hj Hfj Huniq; [lia |].
  simpl. destruct (f s) eqn:Hs.
  - assert (s = j) by (apply Huniq; [lia | exact Hs]). subst s.
    f_equal. apply filter_seq_none. intros k Hk.
    destruct (f k) eqn:Hk'; [| reflexivity].
    assert (k = j) by (apply Huniq; [lia | exact Hk']). lia.
  - apply IH.
    + assert (s <> j) by (intros ->; congruence). lia.
    + exact Hfj.
    + intros k Hk. apply Huniq. lia.
Qed.

Lemma column_sum_is_between (a b : bool) :
  (b = true -> a = true) ->
  (Nat.b2n a + Nat.b2n b =? 1)%nat = a && negb b.
Proof. destruct a, b; simpl; intros H; auto. discriminate H. reflexivity. Qed.

(** What [waist] does on a constructed object: exactly one section [j]
    is selected, the one with [lower <= z] and not [upper <= z], and the
    result is the one-entry array of that section's waist at [z]. *)
Lemma waist_selects (params : R * R * R) (lenses : list (R * R))
  (c : BeamPropagation.t) (z : R) :
  BeamPropagation.init params lenses = inr c ->
  exists j : nat,
    (j < BeamPropagation.amountSections c)%nat /\
    BeamPropagation.index c z = [j] /\
    ge_limit z (nth j (fst (BeamPropagation.beamsLimits c)) (Fin 0)) = true /\
    ge_limit z (nth j (snd (BeamPropagation.beamsLimits c)) (Fin 0)) = false /\
    BeamPropagation.waist c z = [BeamSection.waist (segment c j) z].
Proof.
  intros Hinit.
  destruct (init_fields params lenses c Hinit)
    as (Hps & _ & _ & _ & _ & HS & Hbl & _).
  assert (Hlen : length (BeamPropagation.lensPositions c) = length lenses).
  { rewrite Hps, take_indices_length, argsort_length. apply length_map. }
  assert (Hsorted : Sorted Rle (BeamPropagation.lensPositions c))
    by (rewrite Hps; apply argsort_sorted).
  rewrite <- Hps in Hbl.
  change (BeamPropagation.beamsLimits c
          = limit_rows NegInf (BeamPropagation.lensPositions c)) in Hbl.
  destruct (cut_exists_unique (ge_limit z) eq_refl (ge_limit_mono z)
              (BeamPropagation.lensPositions c) NegInf Hsorted eq_refl)
    as [j [Hj [Hin Huniq]]].
  assert (Hsum : forall k, (k < BeamPropagation.amountSections c)%nat ->
            (Nat.b2n (ge_limit z (nth k (fst (BeamPropagation.beamsLimits c)) (Fin 0)))
             + Nat.b2n (ge_limit z (nth k (snd (BeamPropagation.beamsLimits c)) (Fin 0)))
             =? 1)%nat
            = between (ge_limit z) (BeamPropagation.beamsLimits c) k).
  { intros k Hk. apply column_sum_is_between. rewrite Hbl.
    apply (column_ordered (ge_limit z) eq_refl (ge_limit_mono z));
      [exact Hsorted | reflexivity | lia]. }
  assert (Hidx : BeamPropagation.index c z = [j]).
  { unfold BeamPropagation.index. apply filter_seq_unique.
    - lia.
    - rewrite Hsum by lia. rewrite Hbl. exact Hin.
    - intros k Hk Hf. rewrite Hsum in Hf by lia. rewrite Hbl in Hf.
      apply Huniq; [lia | exact Hf]. }
  exists j. split; [lia |]. split; [exact Hidx |].
  rewrite <- Hbl in Hin. unfold between in Hin.
  apply andb_true_iff in Hin. destruct Hin as [H1 H2].
  apply negb_true_iff in H2.
  split; [exact H1 |]. split; [exact H2 |].
  unfold BeamPropagation.waist. rewrite Hidx. reflexivity.
Qed.

(** X22: the section [waist] selects, in general: on a constructed
    object it is exactly one section [j], the one with [lower <= z] and not
    [upper <= z] (lower limit included, upper limit excluded), and the
    result is the one-entry array of that section's waist at [z]; when
    the lens positions are pairwise distinct, a [z] equal to the
    position of lens [i] is served by section [i+1], the section after
    that lens. *)
Theorem waist_selects_interval (params : R * R * R) (lenses : list (R * R))
  (c : BeamPropagation.t) :
  BeamPropagation.init params lenses = inr c ->
  (forall z : R,
      exists j : nat,
        (j < BeamPropagation.amountSections c)%nat /\
        BeamPropagation.index c z = [j] /\
        ge_limit z (nth j (fst (BeamPropagation.beamsLimits c)) (Fin 0))
        = true /\
        ge_limit z (nth j (snd (BeamPropagation.beamsLimits c)) (Fin 0))
        = false /\
        BeamPropagation.waist c z = [BeamSection.waist (segment c j) z]) /\
  (NoDup (map snd lenses) ->
   forall i : nat,
     (i < BeamPropagation.amountElements c)%nat ->
     let p := nth i (BeamPropagation.lensPositions c) 0 in
     BeamPropagation.index c p = [S i] /\
     BeamPropagation.waist c p = [BeamSection.waist (segment c (S i)) p]).
Proof.
  intros Hinit.
  split; [intros z; apply (waist_selects params lenses c z Hinit) |].
  intros Hnd i Hi p.
  destruct (init_fields params lenses c Hinit)
    as (Hps & _ & _ & _ & HN & HS & Hbl & _).
  rewrite <- Hps in Hbl.
  assert (Hlen : length (BeamPropagation.lensPositions c) = length lenses).
  { rewrite Hps, take_indices_length, argsort_length. apply length_map. }
  assert (Hsorted : Sorted Rle (BeamPropagation.lensPositions c))
    by (rewrite Hps; apply argsort_sorted).
  assert (Hnd' : NoDup (BeamPropagation.lensPositions c)).
  { rewrite Hps. apply (Permutation_NoDup (sorted_positions_perm lenses)).
    exact Hnd. }
  destruct (waist_selects params lenses c p Hinit)
    as (j & Hj & Hidx & _ & _ & Hw).
  assert (Hin : In (S i) (BeamPropagation.index c p)).
  { unfold BeamPropagation.index. apply filter_In. split.
    - apply in_seq. lia.
    - rewrite Hbl. simpl fst. simpl snd.
      rewrite nth_lower by lia.
      assert (Hlo : ge_limit p (Fin (nth i (BeamPropagation.lensPositions c) 0))
                    = true).
      { simpl. apply Rgeb_true_iff. unfold p. lra. }
      rewrite Hlo.
      assert (Hup : ge_limit p
                      (nth (S i) (map Fin (BeamPropagation.lensPositions c)
                                  ++ [PosInf]) (Fin 0)) = false).
      { destruct (Nat.eq_dec (S i) (length (BeamPropagation.lensPositions c)))
          as [He | Hne].
        - rewrite app_nth2 by (rewrite length_map; lia).
          rewrite length_map, He, Nat.sub_diag. reflexivity.
        - rewrite nth_upper by lia. simpl. apply Rgeb_false_iff.
          apply sorted_distinct_lt; [exact Hsorted | exact Hnd' | lia]. }
      rewrite Hup. reflexivity. }
  rewrite Hidx in Hin. destruct Hin as [Hin | []]. subst j.
  split; [exact Hidx | exact Hw].
Qed.

Lemma waist_selects_interval_witness :
  exists c : BeamPropagation.t,
    BeamPropagation.init (1, 1, 0) [(1, 2); (1, 1)] = inr c /\
    (forall z : R,
        exists j : nat,
          (j < BeamPropagation.amountSections c)%nat /\
          BeamPropagation.index c z = [j] /\
          ge_limit z (nth j (fst (BeamPropagation.beamsLimits c)) (Fin 0))
          = true /\
          ge_limit z (nth j (snd (BeamPropagation.beamsLimits c)) (Fin 0))
          = false /\
          BeamPropagation.waist c z = [BeamSection.waist (segment c j) z]) /\
    (NoDup (map snd [(1, 2); (1, 1)]) ->
     forall i : nat,
       (i < BeamPropagation.amountElements c)%nat ->
       let p := nth i (BeamPropagation.lensPositions c) 0 in
       BeamPropagation.index c p = [S i] /\
       BeamPropagation.waist c p = [BeamSection.waist (segment c (S i)) p]).
Proof.
  destruct (init_accepts (1, 1, 0) [(1, 2); (1, 1)]) as [c Hc];
    [waist_check |].
  exists c. split; [exact Hc |].
  apply (waist_selects_interval (1, 1, 0) [(1, 2); (1, 1)] c Hc).
Defined.

(** C5, [waist] at a lens position: with one lens at position 1, the
    coordinate [z = 1] lies in interval 0 = (-inf, 1] and not in
    interval 1 = (1, +inf), the reading of [plotFull]; [waist] selects
    section 1, the section after the lens, and returns its size. *)
Theorem waist_at_lens_position :
  exists c : BeamPropagation.t,
    BeamPropagation.init (1, 1, 0) [(1, 1)] = inr c /\
    interval_contains c 1 0 = true /\
    interval_contains c 1 1 = false /\
    BeamPropagation.index c 1 = [1%nat] /\
    BeamPropagation.waist c 1 = [BeamSection.waist (segment c 1) 1].
Proof.
  destruct (init_accepts (1, 1, 0) [(1, 1)]) as [c Hc];
    [waist_check |].
  exists c. split; [exact Hc |].
  destruct (init_fields (1, 1, 0) [(1, 1)] c Hc)
    as (_ & _ & _ & _ & _ & HS & Hbl & _).
  change (BeamPropagation.beamsLimits c = ([NegInf; Fin 1], [Fin 1; PosInf]))
    in Hbl.
  assert (Hidx : BeamPropagation.index c 1 = [1%nat]).
  { unfold BeamPropagation.index. rewrite HS, Hbl. simpl.
    unfold Rgeb. decide_cmp. reflexivity. }
  unfold interval_contains. rewrite Hbl. simpl. unfold Rgtb.
  decide_cmp. repeat split; try reflexivity; try exact Hidx.
  unfold BeamPropagation.waist. rewrite Hidx. reflexivity.
Qed.

(** ** The size is the same on both sides of a lens *)

(** A section reached from a beam of positive wavelength and waist
    through lenses of nonzero focal length is again such a beam. *)
Lemma next_column_valid (wavelength w position f z : R) :
  0 < wavelength -> 0 < w -> f <> 0 ->
  exists w' position' : R,
    0 < w' /\ next_column (wavelength, w, position) f z
              = (wavelength, w', position').
Proof.
  intros Hl Hw Hf.
  pose proof (zR_init_pos wavelength w position Hl Hw) as HzR.
  unfold next_column, BeamSection_of, BeamSection.transformByLens.
  set (b := BeamSection.init wavelength w position) in *.
  set (D := ((z - BeamSection.z0 b) / f - 1) ^ 2 + (BeamSection.zR b / f) ^ 2).
  assert (HD : 0 < D).
  { apply (denominator_pos (z - BeamSection.z0 b) f (BeamSection.zR b));
      [exact Hf | lra]. }
  eexists. eexists. split; [| reflexivity].
  apply Rdiv_lt_0_compat; [exact Hw | apply sqrt_lt_R0; exact HD].
Qed.

Lemma columns_valid (fs ps : list R) (wavelength : R) (n : nat) :
  0 < wavelength ->
  forall (s : nat) (w position : R),
    0 < w ->
    (forall i, (s <= i < s + n)%nat -> nth i fs 0 <> 0) ->
    forall i : nat,
      (i <= n)%nat ->
      exists w' position' : R,
        0 < w' /\
        nth i ((wavelength, w, position)
               :: columns_from fs ps (wavelength, w, position) s n) (0, 0, 0)
        = (wavelength, w', position').
Proof.
  intros Hl. induction n as [| n IH]; intros s w position Hw Hfs i Hi.
  - replace i with 0%nat by lia. exists w, position. split; [exact Hw | reflexivity].
  - destruct i as [| i].
    + exists w, position. split; [exact Hw | reflexivity].
    + destruct (next_column_valid wavelength w position
                  (nth s fs 0) (nth s ps 0) Hl Hw) as (w' & p' & Hw' & Hn).
      { apply Hfs. lia. }
      change (nth (S i) ((wavelength, w, position)
                 :: columns_from fs ps (wavelength, w, position) s (S n))
                (0, 0, 0))
        with (nth i (next_column (wavelength, w, position)
                       (nth s fs 0) (nth s ps 0)
                     :: columns_from fs ps
                          (next_column (wavelength, w, position)
                             (nth s fs 0) (nth s ps 0)) (S s) n)
                (0, 0, 0)).
      rewrite Hn. apply IH; [exact Hw' | | lia].
      intros k Hk. apply Hfs. lia.
Qed.

Lemma focals_nonzero (lenses : list (R * R)) (i : nat) :
  (forall f, In f (map fst lenses) -> f <> 0) ->
  (i < length lenses)%nat ->
  nth i (take_indices 0 (map fst lenses) (argsort (map snd lenses))) 0 <> 0.
Proof.
  intros Hnz Hi. apply Hnz.
  apply (Permutation_in (l := take_indices 0 (map fst lenses)
                                 (argsort (map snd lenses)))).
  - symmetry. apply take_argsort_perm. rewrite !length_map. reflexivity.
  - apply nth_In. rewrite take_indices_length, argsort_length, length_map.
    exact Hi.
Qed.

(** Across a lens standing at [z] the size at [z] does not change. *)
Lemma segment_step_size (wavelength w position : R) (lenses : list (R * R))
  (c : BeamPropagation.t) (i : nat) :
  BeamPropagation.init (wavelength, w, position) lenses = inr c ->
  0 < wavelength -> 0 < w ->
  (forall f, In f (map fst lenses) -> f <> 0) ->
  (i < length lenses)%nat ->
  BeamSection.waist (segment c (S i))
    (nth i (BeamPropagation.lensPositions c) 0)
  = BeamSection.waist (segment c i)
      (nth i (BeamPropagation.lensPositions c) 0).
Proof.
  intros Hinit Hl Hw Hnz Hi.
  destruct (init_fields _ lenses c Hinit)
    as (Hps & _ & _ & _ & _ & _ & _ & Hbp).
  unfold segment. rewrite Hbp, Hps.
  rewrite columns_from_step by exact Hi. simpl Nat.add.
  set (fs := take_indices 0 (map fst lenses) (argsort (map snd lenses))).
  set (ps := take_indices 0 (map snd lenses) (argsort (map snd lenses))).
  destruct (columns_valid fs ps wavelength (length lenses) Hl 0%nat w position Hw)
    with (i := i) as (w' & p' & Hw' & Hcol).
  { intros k Hk. apply focals_nonzero; [exact Hnz | lia]. }
  { lia. }
  rewrite Hcol. unfold next_column.
  rewrite BeamSection_of_parameters.
  apply lens_preserves_size; [exact Hl | exact Hw' |].
  apply focals_nonzero; [exact Hnz | exact Hi].
Qed.



(** ** The sampled profile of [plotFull] *)

Lemma Rceil_IZR (n : Z) : Rceil (IZR n) = n.
Proof.
  unfold Rceil. rewrite <- opp_IZR.
  rewrite <- (Int_part_spec (IZR (- n)) (- n)); [lia | lra].
Qed.

Lemma INR_NUMBER_OF_STEPS : INR BeamPropagation.NUMBER_OF_STEPS = 300.
Proof.
  unfold BeamPropagation.NUMBER_OF_STEPS. rewrite INR_IZR_INZ.
  reflexivity.
Qed.

Lemma arange_steps (zmin zmax : R) :
  zmin <> zmax ->
  arange zmin zmax ((zmax - zmin) / INR BeamPropagation.NUMBER_OF_STEPS)
  = map (fun i => zmin + INR i * ((zmax - zmin) / 300))
      (seq 0 BeamPropagation.NUMBER_OF_STEPS).
Proof.
  intros Hne. unfold arange. rewrite INR_NUMBER_OF_STEPS.
  replace ((zmax - zmin) / ((zmax - zmin) / 300)) with 300
    by (field; lra).
  rewrite Rceil_IZR. reflexivity.
Qed.

Lemma mask_assign_length {A : Type} (mask : list bool) :
  forall a vals : list A, length (mask_assign mask a vals) = length a.
Proof.
  induction mask as [| m mask IH]; intros a vals; [reflexivity |].
  destruct a as [| x a]; [destruct m; reflexivity |].
  destruct m; simpl.
  - destruct vals as [| v vals]; simpl; [reflexivity | rewrite IH; reflexivity].
  - rewrite IH. reflexivity.
Qed.

(** A masked assignment of values computed from the masked entries. *)
Lemma mask_assign_nth (m : R -> bool) (g : R -> R) (z : list R) :
  forall (bw : list R) (k : nat),
    length bw = length z -> (k < length z)%nat ->
    nth k (mask_assign (map m z) bw (map g (mask_select (map m z) z))) 0
    = if m (nth k z 0) then g (nth k z 0) else nth k bw 0.
Proof.
  induction z as [| x z IH]; intros bw k Hlen Hk; [simpl in Hk; lia |].
  destruct bw as [| b bw]; [discriminate |].
  simpl in Hlen. injection Hlen as Hlen.
  simpl map. simpl mask_select.
  destruct (m x) eqn:Hm.
  - simpl. destruct k as [| k]; [rewrite Hm; reflexivity |].
    apply IH; [exact Hlen | simpl in Hk; lia].
  - simpl. destruct k as [| k]; [rewrite Hm; reflexivity |].
    apply IH; [exact Hlen | simpl in Hk; lia].
Qed.

Lemma plot_body_length (c : BeamPropagation.t) (z bw : list R) (ii : nat) :
  length (BeamPropagation.plot_body c z bw ii) = length bw.
Proof. unfold BeamPropagation.plot_body. apply mask_assign_length. Qed.

Lemma plot_body_nth (c : BeamPropagation.t) (z bw : list R) (ii k : nat) :
  length bw = length z -> (k < length z)%nat ->
  nth k (BeamPropagation.plot_body c z bw ii) 0
  = if interval_contains c (nth k z 0) ii
    then BeamSection.waist (segment c ii) (nth k z 0)
    else nth k bw 0.
Proof.
  intros Hlen Hk. unfold BeamPropagation.plot_body.
  rewrite waist_of_array_map.
  apply (mask_assign_nth (fun zk => interval_contains c zk ii)
           (BeamSection.waist (segment c ii)) z bw k Hlen Hk).
Qed.

Lemma plot_fold_length (c : BeamPropagation.t) (z : list R) (m : nat) :
  forall bw : list R,
    length (fold_left (BeamPropagation.plot_body c z) (seq 0 m) bw)
    = length bw.
Proof.
  induction m as [| m IH]; intros bw; [reflexivity |].
  rewrite seq_S, fold_left_app. simpl.
  rewrite plot_body_length. apply IH.
Qed.

(** After the sections below [m] have been handled, entry [k] holds the
    size in the section [j] whose interval contains [z[k]], if [j < m],
    and is still 0 otherwise. *)
Lemma plot_fold_nth (c : BeamPropagation.t) (z : list R) (k j : nat) :
  (k < length z)%nat ->
  interval_contains c (nth k z 0) j = true ->
  (forall j', (j' < BeamPropagation.amountSections c)%nat ->
              interval_contains c (nth k z 0) j' = true -> j' = j) ->
  forall m : nat,
    (m <= BeamPropagation.amountSections c)%nat ->
    nth k (fold_left (BeamPropagation.plot_body c z) (seq 0 m)
             (repeat 0 (length z))) 0
    = if (j <? m)%nat
      then BeamSection.waist (segment c j) (nth k z 0)
      else 0.
Proof.
  intros Hk Hj Huniq. induction m as [| m IH]; intros Hm.
  - simpl. apply nth_repeat.
  - rewrite seq_S, fold_left_app. simpl.
    rewrite plot_body_nth;
      [| rewrite plot_fold_length; apply repeat_length | exact Hk].
    rewrite IH by lia.
    destruct (interval_contains c (nth k z 0) m) eqn:Hin.
    + assert (m = j) by (apply Huniq; [lia | exact Hin]). subst m.
      rewrite (proj2 (Nat.ltb_lt j (S j))) by lia. reflexivity.
    + assert (m <> j) by (intros ->; congruence).
      destruct (j <? m)%nat eqn:E1.
      * apply Nat.ltb_lt in E1.
        rewrite (proj2 (Nat.ltb_lt j (S m))) by lia. reflexivity.
      * apply Nat.ltb_ge in E1.
        rewrite (proj2 (Nat.ltb_ge j (S m))) by lia. reflexivity.
Qed.


Lemma plotFull_given (c : BeamPropagation.t) (zmin zmax : R) :
  zmin <> zmax ->
  BeamPropagation.plotFull c (Some zmin) (Some zmax)
  = inr (map (fun i => zmin + INR i * ((zmax - zmin) / 300))
           (seq 0 BeamPropagation.NUMBER_OF_STEPS),
         fold_left
           (BeamPropagation.plot_body c
              (map (fun i => zmin + INR i * ((zmax - zmin) / 300))
                 (seq 0 BeamPropagation.NUMBER_OF_STEPS)))
           (seq 0 (BeamPropagation.amountSections c))
           (repeat 0 BeamPropagation.NUMBER_OF_STEPS)).
Proof.
  intros Hne. unfold BeamPropagation.plotFull.
  rewrite (proj2 (Reqb_false_iff _ 0)).
  - rewrite arange_steps by exact Hne.
    rewrite length_map, length_seq. reflexivity.
  - rewrite INR_NUMBER_OF_STEPS. intros H.
    apply Hne. lra.
Qed.





(** ** Further properties of [BeamSection.waist] and [divergence] *)

Lemma waist_sq (wavelength w position z : R) :
  0 < wavelength -> 0 < w ->
  let b := BeamSection.init wavelength w position in
  0 < BeamSection.waist b z /\
  BeamSection.waist b z ^ 2
  = w ^ 2 + (BeamSection.divergence b * (z - position)) ^ 2.
Proof.
  intros Hl Hw b.
  pose proof (zR_init_pos wavelength w position Hl Hw) as HzR. fold b in HzR.
  pose proof PI_RGT_0 as Hpi.
  assert (Hr : BeamSection.zR b <> 0) by lra.
  pose proof (sq_ratio_nonneg (z - position) _ Hr) as Hq.
  pose proof (sqrt_one_plus_ge_1 _ Hq) as Hs.
  unfold BeamSection.waist, BeamSection.divergence.
  change (BeamSection.w0 b) with w. change (BeamSection.z0 b) with position.
  change (BeamSection.lambd b) with wavelength.
  split; [apply Rmult_lt_0_compat; lra |].
  rewrite Rpow_mult_distr.
  rewrite pow2_sqrt by lra.
  change (BeamSection.zR b) with (PI * w ^ 2 / wavelength).
  field. repeat split; lra.
Qed.

(** X1: the size of a beam with positive wavelength and waist is
    symmetric about the waist position and grows with the distance from
    it. *)
Theorem waist_symmetric_monotone (wavelength w position : R) :
  0 < wavelength -> 0 < w ->
  let b := BeamSection.init wavelength w position in
  (forall d : R,
      BeamSection.waist b (position + d) = BeamSection.waist b (position - d)) /\
  (forall z1 z2 : R,
      Rabs (z1 - position) <= Rabs (z2 - position) ->
      BeamSection.waist b z1 <= BeamSection.waist b z2) /\
  (forall z1 z2 : R,
      Rabs (z1 - position) < Rabs (z2 - position) ->
      BeamSection.waist b z1 < BeamSection.waist b z2).
Proof.
  intros Hl Hw b.
  pose proof (zR_init_pos wavelength w position Hl Hw) as HzR. fold b in HzR.
  assert (Hr : BeamSection.zR b <> 0) by lra.
  assert (Hr2 : 0 < / BeamSection.zR b ^ 2).
  { apply Rinv_0_lt_compat. apply pow_lt. exact HzR. }
  unfold BeamSection.waist.
  change (BeamSection.w0 b) with w. change (BeamSection.z0 b) with position.
  split; [| split].
  - intros d.
    replace ((position + d - position) ^ 2)
      with ((position - d - position) ^ 2) by ring.
    reflexivity.
  - intros z1 z2 Habs.
    apply Rmult_le_compat_l; [lra |]. apply sqrt_le_1_alt.
    apply Rsqr_le_abs_1 in Habs. unfold Rsqr in Habs.
    unfold Rdiv. nra.
  - intros z1 z2 Habs.
    apply Rmult_lt_compat_l; [lra |].
    pose proof (sq_ratio_nonneg (z1 - position) _ Hr) as Hq.
    apply sqrt_lt_1_alt. split; [lra |].
    apply Rsqr_lt_abs_1 in Habs. unfold Rsqr in Habs.
    unfold Rdiv. nra.
Qed.

Lemma waist_symmetric_monotone_witness :
  let b := BeamSection.init 1 1 0 in
  (forall d : R, BeamSection.waist b (0 + d) = BeamSection.waist b (0 - d)) /\
  (forall z1 z2 : R,
      Rabs (z1 - 0) <= Rabs (z2 - 0) ->
      BeamSection.waist b z1 <= BeamSection.waist b z2) /\
  (forall z1 z2 : R,
      Rabs (z1 - 0) < Rabs (z2 - 0) ->
      BeamSection.waist b z1 < BeamSection.waist b z2).
Proof.
  apply (waist_symmetric_monotone 1 1 0); lra.
Defined.

(** X2: one Rayleigh range away from the waist, on either side, the
    size is sqrt(2) times the waist. *)
Theorem waist_at_rayleigh_range (wavelength w position : R) :
  0 < wavelength -> 0 < w ->
  let b := BeamSection.init wavelength w position in
  BeamSection.waist b (position + BeamSection.zR b) = sqrt 2 * w /\
  BeamSection.waist b (position - BeamSection.zR b) = sqrt 2 * w.
Proof.
  intros Hl Hw b.
  pose proof (zR_init_pos wavelength w position Hl Hw) as HzR. fold b in HzR.
  unfold BeamSection.waist.
  change (BeamSection.w0 b) with w. change (BeamSection.z0 b) with position.
  split.
  - replace (1 + (position + BeamSection.zR b - position) ^ 2
                 / BeamSection.zR b ^ 2) with 2 by (field; lra).
    ring.
  - replace (1 + (position - BeamSection.zR b - position) ^ 2
                 / BeamSection.zR b ^ 2) with 2 by (field; lra).
    ring.
Qed.

Lemma waist_at_rayleigh_range_witness :
  let b := BeamSection.init 1 1 0 in
  BeamSection.waist b (0 + BeamSection.zR b) = sqrt 2 * 1 /\
  BeamSection.waist b (0 - BeamSection.zR b) = sqrt 2 * 1.
Proof.
  apply (waist_at_rayleigh_range 1 1 0); lra.
Defined.

(** X3: [divergence] is the slope of the asymptote of [waist]: the
    square of the size is the square of the waist plus the square of
    divergence times distance, so that the size lies strictly above
    divergence times distance and at most one waist above it. *)
Theorem divergence_is_asymptote (wavelength w position z : R) :
  0 < wavelength -> 0 < w ->
  let b := BeamSection.init wavelength w position in
  let theta := BeamSection.divergence b in
  0 < theta /\
  theta = w / BeamSection.zR b /\
  BeamSection.waist b z ^ 2 = w ^ 2 + (theta * (z - position)) ^ 2 /\
  theta * Rabs (z - position) < BeamSection.waist b z /\
  BeamSection.waist b z <= w + theta * Rabs (z - position).
Proof.
  intros Hl Hw b theta.
  pose proof (zR_init_pos wavelength w position Hl Hw) as HzR. fold b in HzR.
  pose proof PI_RGT_0 as Hpi.
  destruct (waist_sq wavelength w position z Hl Hw) as [Hpos Hsq].
  fold b in Hpos, Hsq. fold theta in Hsq.
  assert (Hth : 0 < theta).
  { unfold theta, BeamSection.divergence.
    change (BeamSection.w0 b) with w.
    change (BeamSection.lambd b) with wavelength.
    apply Rdiv_lt_0_compat; [lra | apply Rmult_lt_0_compat; lra]. }
  split; [exact Hth |].
  split.
  { unfold theta, BeamSection.divergence.
    change (BeamSection.w0 b) with w.
    change (BeamSection.lambd b) with wavelength.
    change (BeamSection.zR b) with (PI * w ^ 2 / wavelength).
    field. repeat split; lra. }
  split; [exact Hsq |].
  set (s := BeamSection.waist b z) in *.
  set (t := theta * Rabs (z - position)).
  assert (Ht : 0 <= t)
    by (unfold t; apply Rmult_le_pos; [lra | apply Rabs_pos]).
  assert (Ht2 : t ^ 2 = (theta * (z - position)) ^ 2).
  { unfold t. rewrite !Rpow_mult_distr. f_equal.
    rewrite <- !Rsqr_pow2. symmetry. apply Rsqr_abs. }
  split; nra.
Qed.

Lemma divergence_is_asymptote_witness :
  let b := BeamSection.init 1 1 0 in
  let theta := BeamSection.divergence b in
  0 < theta /\
  theta = 1 / BeamSection.zR b /\
  BeamSection.waist b 5 ^ 2 = 1 ^ 2 + (theta * (5 - 0)) ^ 2 /\
  theta * Rabs (5 - 0) < BeamSection.waist b 5 /\
  BeamSection.waist b 5 <= 1 + theta * Rabs (5 - 0).
Proof.
  apply (divergence_is_asymptote 1 1 0 5); lra.
Defined.

(** ** Further properties of [transformByLens] *)

(** The attributes of the transformed beam, with [D] for [denom]. *)
Lemma transform_fields (wavelength w position f z : R) :
  0 < wavelength -> 0 < w -> f <> 0 ->
  let b := BeamSection.init wavelength w position in
  let D := denominator (z - position) f (BeamSection.zR b) in
  let b' := BeamSection.transformByLens b f z in
  0 < D /\ 0 < sqrt D /\ sqrt D ^ 2 = D /\
  BeamSection.lambd b' = wavelength /\
  BeamSection.w0 b' = w / sqrt D /\
  BeamSection.z0 b' = z + f * (1 + ((z - position) / f - 1) / D) /\
  BeamSection.zR b' = BeamSection.zR b / D.
Proof.
  intros Hl Hw Hf b D b'.
  pose proof (zR_init_pos wavelength w position Hl Hw) as HzR. fold b in HzR.
  pose proof PI_RGT_0 as Hpi.
  assert (HD : 0 < D)
    by (apply denominator_pos; [exact Hf | lra]).
  assert (Hs : 0 < sqrt D) by (apply sqrt_lt_R0; exact HD).
  assert (Hss : sqrt D ^ 2 = D) by (apply pow2_sqrt; lra).
  repeat split; try assumption; try reflexivity.
  change (BeamSection.zR b') with (PI * (w / sqrt D) ^ 2 / wavelength).
  change (BeamSection.zR b) with (PI * w ^ 2 / wavelength).
  replace ((w / sqrt D) ^ 2) with (w ^ 2 / sqrt D ^ 2) by (field; lra).
  rewrite Hss. field. split; lra.
Qed.

(** X4: a lens divides the Rayleigh range by [denom] and multiplies the
    divergence by sqrt(denom); the product of waist and divergence is
    wavelength/pi before and after the lens. *)
Theorem transform_rayleigh_divergence (wavelength w position f z : R) :
  0 < wavelength -> 0 < w -> f <> 0 ->
  let b := BeamSection.init wavelength w position in
  let denom := denominator (z - position) f (BeamSection.zR b) in
  let b' := BeamSection.transformByLens b f z in
  BeamSection.zR b' = BeamSection.zR b / denom /\
  BeamSection.divergence b' = BeamSection.divergence b * sqrt denom /\
  BeamSection.w0 b * BeamSection.divergence b = wavelength / PI /\
  BeamSection.w0 b' * BeamSection.divergence b' = wavelength / PI.
Proof.
  intros Hl Hw Hf b denom b'.
  destruct (transform_fields wavelength w position f z Hl Hw Hf)
    as (HD & Hs & Hss & Hlam & Hw0 & _ & HzR').
  fold b in HD, Hs, Hss, Hlam, Hw0, HzR'. fold denom in HD, Hs, Hss, Hw0, HzR'.
  fold b' in Hlam, Hw0, HzR'.
  pose proof PI_RGT_0 as Hpi.
  split; [exact HzR' |].
  unfold BeamSection.divergence. rewrite Hlam, Hw0.
  change (BeamSection.w0 b) with w.
  change (BeamSection.lambd b) with wavelength.
  repeat split; field; repeat split; lra.
Qed.

Lemma transform_rayleigh_divergence_witness :
  let b := BeamSection.init 1 1 0 in
  let denom := denominator (2 - 0) 1 (BeamSection.zR b) in
  let b' := BeamSection.transformByLens b 1 2 in
  BeamSection.zR b' = BeamSection.zR b / denom /\
  BeamSection.divergence b' = BeamSection.divergence b * sqrt denom /\
  BeamSection.w0 b * BeamSection.divergence b = 1 / PI /\
  BeamSection.w0 b' * BeamSection.divergence b' = 1 / PI.
Proof.
  apply (transform_rayleigh_divergence 1 1 0 1 2); lra.
Defined.

Lemma abs_divergence (wavelength w position f : R) :
  0 < wavelength -> 0 < w -> f <> 0 ->
  let b := BeamSection.init wavelength w position in
  let m := BeamSection.zR b / Rabs f in
  0 < m /\ m ^ 2 = (BeamSection.zR b / f) ^ 2 /\
  Rabs f * BeamSection.divergence b = w / m.
Proof.
  intros Hl Hw Hf b m.
  pose proof (zR_init_pos wavelength w position Hl Hw) as HzR. fold b in HzR.
  pose proof PI_RGT_0 as Hpi.
  assert (Ha : 0 < Rabs f) by (apply Rabs_pos_lt; exact Hf).
  assert (Ha2 : Rabs f ^ 2 = f ^ 2).
  { rewrite <- !Rsqr_pow2. symmetry. apply Rsqr_abs. }
  split; [unfold m; apply Rdiv_lt_0_compat; lra |].
  split.
  - unfold m. replace ((BeamSection.zR b / Rabs f) ^ 2)
      with (BeamSection.zR b ^ 2 / Rabs f ^ 2) by (field; lra).
    rewrite Ha2. field. exact Hf.
  - unfold m, BeamSection.divergence.
    change (BeamSection.w0 b) with w.
    change (BeamSection.lambd b) with wavelength.
    change (BeamSection.zR b) with (PI * w ^ 2 / wavelength).
    field. repeat split; lra.
Qed.

(** X5: the waist behind a lens is at most |f| times the divergence of
    the incoming beam (|f|*w0/zR, the maximum magnification |f|/zR), and
    it reaches this value exactly when the lens stands one focal length
    from the incoming waist. *)
Theorem magnification_bound (wavelength w position f z : R) :
  0 < wavelength -> 0 < w -> f <> 0 ->
  let b := BeamSection.init wavelength w position in
  let b' := BeamSection.transformByLens b f z in
  BeamSection.w0 b' <= Rabs f * BeamSection.divergence b /\
  Rabs f * BeamSection.divergence b = Rabs f * w / BeamSection.zR b /\
  (BeamSection.w0 b' = Rabs f * BeamSection.divergence b <->
   z - position = f).
Proof.
  intros Hl Hw Hf b b'.
  destruct (transform_fields wavelength w position f z Hl Hw Hf)
    as (HD & Hs & Hss & _ & Hw0 & _ & _).
  destruct (abs_divergence wavelength w position f Hl Hw Hf)
    as (Hm & Hm2 & Hth).
  fold b in HD, Hs, Hss, Hw0, Hm, Hm2, Hth. fold b' in Hw0.
  pose proof (zR_init_pos wavelength w position Hl Hw) as HzR. fold b in HzR.
  set (D := denominator (z - position) f (BeamSection.zR b)) in *.
  set (m := BeamSection.zR b / Rabs f) in *.
  set (a := (z - position) / f - 1).
  assert (HDa : D = a ^ 2 + m ^ 2) by (rewrite Hm2; reflexivity).
  assert (Hsm : m <= sqrt D) by nra.
  rewrite Hw0, Hth.
  split.
  { unfold Rdiv. apply Rmult_le_compat_l; [lra |].
    apply Rinv_le_contravar; assumption. }
  split.
  { rewrite <- Hth. unfold BeamSection.divergence.
    change (BeamSection.w0 b) with w.
    change (BeamSection.lambd b) with wavelength.
    change (BeamSection.zR b) with (PI * w ^ 2 / wavelength).
    pose proof PI_RGT_0. field. repeat split; lra. }
  split.
  - intros Heq.
    assert (Hsq : sqrt D = m).
    { apply (Rmult_eq_reg_l w) in Heq; [| lra].
      apply Rinv_eq_reg in Heq. exact Heq. }
    assert (Ha0 : a = 0) by nra.
    unfold a in Ha0.
    assert (Hq : (z - position) / f = 1) by lra.
    apply (Rmult_eq_compat_r f) in Hq.
    unfold Rdiv in Hq. rewrite Rmult_assoc, Rinv_l, Rmult_1_r, Rmult_1_l in Hq
      by exact Hf.
    exact Hq.
  - intros Heq.
    assert (Ha0 : a = 0) by (unfold a; rewrite Heq; field; exact Hf).
    assert (Hsq : sqrt D = m) by nra.
    rewrite Hsq. reflexivity.
Qed.

Lemma magnification_bound_witness :
  let b := BeamSection.init 1 1 0 in
  let b' := BeamSection.transformByLens b 1 2 in
  BeamSection.w0 b' <= Rabs 1 * BeamSection.divergence b /\
  Rabs 1 * BeamSection.divergence b = Rabs 1 * 1 / BeamSection.zR b /\
  (BeamSection.w0 b' = Rabs 1 * BeamSection.divergence b <-> 2 - 0 = 1).
Proof.
  apply (magnification_bound 1 1 0 1 2); lra.
Defined.

Lemma focal_plane_identity (d_in f zR D : R) :
  f <> 0 -> zR <> 0 -> D <> 0 ->
  D = (d_in / f - 1) ^ 2 + (zR / f) ^ 2 ->
  (1 + (f - f * (1 + (d_in / f - 1) / D)) ^ 2 / (zR / D) ^ 2) / D
  = (f / zR) ^ 2.
Proof.
  intros Hf Hz HD HDe.
  field_simplify_eq; [| auto].
  assert (HD2 : D * f ^ 2 = (d_in - f) ^ 2 + zR ^ 2).
  { rewrite HDe. field. exact Hf. }
  nra.
Qed.

(** X6: one focal length behind the lens the size of the transformed
    beam is |f| times the divergence of the incoming beam, wherever the
    incoming waist lies. *)
Theorem back_focal_plane_size (wavelength w position f z : R) :
  0 < wavelength -> 0 < w -> f <> 0 ->
  let b := BeamSection.init wavelength w position in
  BeamSection.waist (BeamSection.transformByLens b f z) (z + f)
  = Rabs f * BeamSection.divergence b.
Proof.
  intros Hl Hw Hf b.
  destruct (transform_fields wavelength w position f z Hl Hw Hf)
    as (HD & Hs & Hss & _ & Hw0 & Hz0 & HzR').
  destruct (abs_divergence wavelength w position f Hl Hw Hf)
    as (Hm & Hm2 & Hth).
  fold b in HD, Hs, Hss, Hw0, Hz0, HzR', Hm, Hm2, Hth.
  pose proof (zR_init_pos wavelength w position Hl Hw) as HzR. fold b in HzR.
  unfold BeamSection.waist. rewrite Hw0, Hz0, HzR', Hth.
  set (D := denominator (z - position) f (BeamSection.zR b)) in *.
  set (r := BeamSection.zR b) in *.
  replace (z + f - (z + f * (1 + ((z - position) / f - 1) / D)))
    with (f - f * (1 + ((z - position) / f - 1) / D)) by ring.
  set (X := 1 + (f - f * (1 + ((z - position) / f - 1) / D)) ^ 2
                / (r / D) ^ 2).
  replace (w / sqrt D * sqrt X) with (w * (sqrt X / sqrt D)) by (field; lra).
  rewrite <- sqrt_div_alt by exact HD.
  unfold X. rewrite (focal_plane_identity (z - position) f r D);
    try lra; [| reflexivity].
  rewrite <- Rsqr_pow2, sqrt_Rsqr_abs.
  unfold Rdiv at 1. rewrite Rabs_mult.
  rewrite (Rabs_right (/ r)) by (left; apply Rinv_0_lt_compat; exact HzR).
  assert (Ha : 0 < Rabs f) by (apply Rabs_pos_lt; exact Hf).
  field. split; lra.
Qed.

Lemma back_focal_plane_size_witness :
  let b := BeamSection.init 1 1 0 in
  BeamSection.waist (BeamSection.transformByLens b 1 2) (2 + 1)
  = Rabs 1 * BeamSection.divergence b.
Proof.
  apply (back_focal_plane_size 1 1 0 1 2); lra.
Defined.

(** X7: a thin lens does not change the size of the beam in its own
    plane: at the lens position the transformed beam and the incoming
    beam have the same size. *)
Theorem size_continuous_at_lens (wavelength w position f z : R) :
  0 < wavelength -> 0 < w -> f <> 0 ->
  let b := BeamSection.init wavelength w position in
  BeamSection.waist (BeamSection.transformByLens b f z) z
  = BeamSection.waist b z.
Proof.
  intros Hl Hw Hf b. apply lens_preserves_size; assumption.
Qed.

Lemma size_continuous_at_lens_witness :
  let b := BeamSection.init 1 1 0 in
  BeamSection.waist (BeamSection.transformByLens b 1 2) 2
  = BeamSection.waist b 2.
Proof.
  apply (size_continuous_at_lens 1 1 0 1 2); lra.
Defined.

(** X8: a waist in the front focal plane of a lens (lens one focal
    length behind the waist) is imaged into the back focal plane, with
    waist |f| times the incoming divergence, |f|*wavelength/(pi*w). *)
Theorem focal_plane_to_focal_plane (wavelength w position f : R) :
  0 < wavelength -> 0 < w -> f <> 0 ->
  let b := BeamSection.init wavelength w position in
  let b' := BeamSection.transformByLens b f (position + f) in
  BeamSection.z0 b' = position + 2 * f /\
  BeamSection.w0 b' = Rabs f * wavelength / (PI * w) /\
  BeamSection.lambd b' = wavelength.
Proof.
  intros Hl Hw Hf b b'.
  destruct (transform_fields wavelength w position f (position + f) Hl Hw Hf)
    as (HD & Hs & Hss & Hlam & Hw0 & Hz0 & _).
  destruct (abs_divergence wavelength w position f Hl Hw Hf)
    as (Hm & Hm2 & Hth).
  fold b in HD, Hs, Hss, Hlam, Hw0, Hz0, Hm, Hm2, Hth.
  fold b' in Hlam, Hw0, Hz0.
  set (D := denominator (position + f - position) f (BeamSection.zR b)) in *.
  set (m := BeamSection.zR b / Rabs f) in *.
  assert (Ha : (position + f - position) / f - 1 = 0) by (field; exact Hf).
  assert (HDm : D = m ^ 2).
  { rewrite Hm2. unfold D, denominator. rewrite Ha. ring. }
  assert (Hsm : sqrt D = m) by nra.
  split.
  { rewrite Hz0, Ha. unfold Rdiv. rewrite Rmult_0_l. ring. }
  split; [| exact Hlam].
  rewrite Hw0, Hsm, <- Hth.
  unfold BeamSection.divergence.
  change (BeamSection.w0 b) with w.
  change (BeamSection.lambd b) with wavelength.
  pose proof PI_RGT_0. field. split; lra.
Qed.

Lemma focal_plane_to_focal_plane_witness :
  let b := BeamSection.init 1 1 0 in
  let b' := BeamSection.transformByLens b 2 (0 + 2) in
  BeamSection.z0 b' = 0 + 2 * 2 /\
  BeamSection.w0 b' = Rabs 2 * 1 / (PI * 1) /\
  BeamSection.lambd b' = 1.
Proof.
  apply (focal_plane_to_focal_plane 1 1 0 2); lra.
Defined.

(** X9: moving the incoming waist and the lens by the same distance [t]
    moves the outgoing waist by [t] and changes nothing else; the size
    of a beam depends only on the distance from its waist. *)
Theorem translation_invariance (wavelength w position f z t : R) :
  let b := BeamSection.init wavelength w position in
  let bt := BeamSection.init wavelength w (position + t) in
  BeamSection.transformByLens bt f (z + t)
  = BeamSection.init wavelength
      (BeamSection.w0 (BeamSection.transformByLens b f z))
      (BeamSection.z0 (BeamSection.transformByLens b f z) + t) /\
  BeamSection.waist bt (z + t) = BeamSection.waist b z.
Proof.
  intros b bt.
  unfold BeamSection.transformByLens, BeamSection.waist.
  change (BeamSection.z0 bt) with (position + t).
  change (BeamSection.z0 b) with position.
  change (BeamSection.zR bt) with (BeamSection.zR b).
  change (BeamSection.w0 bt) with (BeamSection.w0 b).
  change (BeamSection.lambd bt) with (BeamSection.lambd b).
  replace (z + t - (position + t)) with (z - position) by ring.
  split; [| reflexivity].
  cbn [BeamSection.w0 BeamSection.z0 BeamSection.init].
  f_equal. ring.
Qed.

Lemma telescope_denominator (d_in f1 f2 zR D1 : R) :
  f1 <> 0 -> f2 <> 0 -> D1 <> 0 ->
  D1 = (d_in / f1 - 1) ^ 2 + (zR / f1) ^ 2 ->
  denominator (f1 + f2 - f1 * (1 + (d_in / f1 - 1) / D1)) f2 (zR / D1)
  = (f1 / f2) ^ 2 / D1.
Proof.
  intros Hf1 Hf2 HD HDe. unfold denominator.
  assert (HD2 : D1 * f1 ^ 2 = (d_in - f1) ^ 2 + zR ^ 2).
  { rewrite HDe. field. exact Hf1. }
  field_simplify_eq; [| auto].
  nra.
Qed.

(** X10: two lenses separated by the sum of their focal lengths (a
    telescope) turn a waist [w] at distance [d_in] in front of the first
    lens into a waist [w*|f2/f1|], whatever the wavelength, at distance
    (f2/f1)*(f1 + f2 - d_in*f2/f1) behind the second lens. *)
Theorem telescope (wavelength w position f1 f2 z1 : R) :
  0 < wavelength -> 0 < w -> f1 <> 0 -> f2 <> 0 ->
  let b := BeamSection.init wavelength w position in
  let z2 := z1 + f1 + f2 in
  let b2 :=
    BeamSection.transformByLens (BeamSection.transformByLens b f1 z1) f2 z2 in
  BeamSection.w0 b2 = w * Rabs (f2 / f1) /\
  BeamSection.z0 b2
  = z2 + f2 / f1 * (f1 + f2 - (z1 - position) * f2 / f1) /\
  BeamSection.lambd b2 = wavelength.
Proof.
  intros Hl Hw Hf1 Hf2 b z2 b2.
  destruct (transform_fields wavelength w position f1 z1 Hl Hw Hf1)
    as (HD1 & Hs1 & Hss1 & _ & Hw1 & Hz1 & HzR1).
  fold b in HD1, Hs1, Hss1, Hw1, Hz1, HzR1.
  set (D1 := denominator (z1 - position) f1 (BeamSection.zR b)) in *.
  set (w1 := w / sqrt D1) in *.
  set (p1 := z1 + f1 * (1 + ((z1 - position) / f1 - 1) / D1)) in *.
  assert (Hw1pos : 0 < w1) by (unfold w1; apply Rdiv_lt_0_compat; lra).
  assert (Hb1 : BeamSection.transformByLens b f1 z1
                = BeamSection.init wavelength w1 p1) by reflexivity.
  unfold b2. rewrite Hb1.
  destruct (transform_fields wavelength w1 p1 f2 z2 Hl Hw1pos Hf2)
    as (HD2 & Hs2 & Hss2 & Hlam2 & Hw2 & Hz2 & _).
  rewrite Hb1 in HzR1.
  set (D2 := denominator (z2 - p1) f2
               (BeamSection.zR (BeamSection.init wavelength w1 p1))) in *.
  assert (HD2e : D2 = (f1 / f2) ^ 2 / D1).
  { unfold D2. rewrite HzR1.
    replace (z2 - p1)
      with (f1 + f2 - f1 * (1 + ((z1 - position) / f1 - 1) / D1))
      by (unfold z2, p1; ring).
    apply telescope_denominator; try lra. reflexivity. }
  assert (Hprod : sqrt D1 * sqrt D2 = Rabs (f1 / f2)).
  { rewrite <- sqrt_mult by lra. rewrite HD2e.
    replace (D1 * ((f1 / f2) ^ 2 / D1)) with (Rsqr (f1 / f2))
      by (unfold Rsqr; field; split; lra).
    apply sqrt_Rsqr_abs. }
  assert (Hinv : Rabs (f2 / f1) * Rabs (f1 / f2) = 1).
  { rewrite <- Rabs_mult.
    replace (f2 / f1 * (f1 / f2)) with 1 by (field; split; assumption).
    apply Rabs_R1. }
  assert (Habs : 0 < Rabs (f1 / f2)).
  { apply Rabs_pos_lt. unfold Rdiv.
    apply Rmult_integral_contrapositive_currified;
      [exact Hf1 | apply Rinv_neq_0_compat; exact Hf2]. }
  split; [| split; [| exact Hlam2]].
  - rewrite Hw2. unfold w1.
    replace (w / sqrt D1 / sqrt D2) with (w / (sqrt D1 * sqrt D2))
      by (field; split; lra).
    rewrite Hprod.
    apply (Rmult_eq_reg_r (Rabs (f1 / f2))); [| lra].
    unfold Rdiv at 1. rewrite Rmult_assoc, Rinv_l by lra.
    rewrite Rmult_assoc, Hinv. reflexivity.
  - rewrite Hz2. f_equal.
    replace (z2 - p1)
      with (f2 - f1 * (((z1 - position) / f1 - 1) / D1))
      by (unfold z2, p1; ring).
    rewrite HD2e. field. repeat split; lra.
Qed.

Lemma telescope_witness :
  let b := BeamSection.init 1 1 0 in
  let z2 := 1 + 1 + 2 in
  let b2 :=
    BeamSection.transformByLens (BeamSection.transformByLens b 1 1) 2 z2 in
  BeamSection.w0 b2 = 1 * Rabs (2 / 1) /\
  BeamSection.z0 b2 = z2 + 2 / 1 * (1 + 2 - (1 - 0) * 2 / 1) /\
  BeamSection.lambd b2 = 1.
Proof.
  apply (telescope 1 1 0 1 2 1); lra.
Defined.

(** X11: a diverging lens (f < 0) standing at or behind the incoming
    waist gives a smaller waist, and that waist lies in front of the
    lens, less than |f| away from it. *)
Theorem diverging_lens (wavelength w position f z : R) :
  0 < wavelength -> 0 < w -> f < 0 -> position <= z ->
  let b' :=
    BeamSection.transformByLens (BeamSection.init wavelength w position) f z in
  BeamSection.w0 b' < w /\
  z + f < BeamSection.z0 b' < z.
Proof.
  intros Hl Hw Hf Hz b'.
  assert (Hf0 : f <> 0) by lra.
  destruct (transform_fields wavelength w position f z Hl Hw Hf0)
    as (HD & Hs & Hss & _ & Hw0 & Hz0 & _).
  destruct (abs_divergence wavelength w position f Hl Hw Hf0)
    as (Hm & Hm2 & _).
  fold b' in Hw0, Hz0.
  set (b := BeamSection.init wavelength w position) in *.
  set (D := denominator (z - position) f (BeamSection.zR b)) in *.
  set (m := BeamSection.zR b / Rabs f) in *.
  set (a := (z - position) / f - 1) in *.
  assert (HDa : D = a ^ 2 + m ^ 2) by (rewrite Hm2; reflexivity).
  assert (Ha : a <= -1).
  { unfold a. assert (Hq : (z - position) / f <= 0); [| lra].
    unfold Rdiv. assert (Hinv : / f < 0) by (apply Rinv_lt_0_compat; exact Hf).
    nra. }
  assert (HD1 : 1 < D) by nra.
  assert (Hs1 : 1 < sqrt D) by nra.
  split.
  - rewrite Hw0. apply (Rmult_lt_reg_r (sqrt D)); [lra |].
    unfold Rdiv. rewrite Rmult_assoc, Rinv_l by lra. nra.
  - rewrite Hz0.
    set (q := a / D).
    assert (HqD : q * D = a) by (unfold q; field; lra).
    assert (Hq0 : q < 0) by nra.
    assert (Hq1 : -1 < q) by nra.
    split; nra.
Qed.

Lemma diverging_lens_witness :
  let b' := BeamSection.transformByLens (BeamSection.init 1 1 0) (-1) 2 in
  BeamSection.w0 b' < 1 /\
  2 + -1 < BeamSection.z0 b' < 2.
Proof.
  apply (diverging_lens 1 1 0 (-1) 2); lra.
Defined.

Lemma pow2_pos (x : R) : x <> 0 -> 0 < x ^ 2.
Proof. intros H. rewrite <- Rsqr_pow2. apply Rlt_0_sqr. exact H. Qed.

Lemma contact_M_pos (d f1 f2 r D1 : R) :
  f1 <> 0 -> f2 <> 0 -> 0 < r -> 
  D1 * f1 ^ 2 = (d - f1) ^ 2 + r ^ 2 ->
  let S := f1 + f2 in
  let M := S ^ 2 * D1 + 2 * S * (d - f1) + f1 ^ 2 in
  f1 ^ 2 * M = (S * d - f1 * f2) ^ 2 + r ^ 2 * S ^ 2 /\ 0 < M.
Proof.
  intros Hf1 Hf2 Hr He S M.
  assert (Hk : f1 ^ 2 * M = (S * d - f1 * f2) ^ 2 + r ^ 2 * S ^ 2).
  { unfold M.
    replace (f1 ^ 2 * (S ^ 2 * D1 + 2 * S * (d - f1) + f1 ^ 2))
      with (S ^ 2 * (D1 * f1 ^ 2) + 2 * S * f1 ^ 2 * (d - f1) + f1 ^ 4) by ring.
    rewrite He. unfold S. ring. }
  split; [exact Hk |].
  assert (Hf12 : 0 < f1 ^ 2) by (apply pow2_pos; exact Hf1).
  assert (Hpos : 0 < (S * d - f1 * f2) ^ 2 + r ^ 2 * S ^ 2).
  { destruct (Req_dec S 0) as [HS | HS].
    - rewrite HS. replace ((0 * d - f1 * f2) ^ 2 + r ^ 2 * 0 ^ 2) with ((f1 * f2) ^ 2) by ring.
      apply pow2_pos. apply Rmult_integral_contrapositive_currified; assumption.
    - assert (0 < r ^ 2 * S ^ 2).
      { apply Rmult_lt_0_compat; [apply pow2_pos; lra | apply pow2_pos; exact HS]. }
      pose proof (pow2_ge_0 (S * d - f1 * f2)). lra. }
  rewrite <- Hk in Hpos.
  apply (Rmult_lt_reg_l (f1 ^ 2)); [exact Hf12 | lra].
Qed.

Lemma contact_algebra (d f1 f2 r D1 : R) :
  f1 <> 0 -> f2 <> 0 -> 0 < r -> 0 < D1 ->
  D1 * f1 ^ 2 = (d - f1) ^ 2 + r ^ 2 ->
  let S := f1 + f2 in
  let M := S ^ 2 * D1 + 2 * S * (d - f1) + f1 ^ 2 in
  let d1 := - (f1 * (1 + (d / f1 - 1) / D1)) in
  let D2 := denominator d1 f2 (r / D1) in
  D1 * D2 = M / f2 ^ 2 /\
  f2 * (1 + (d1 / f2 - 1) / D2) = f2 * (M - f2 * (S * D1 + d - f1)) / M.
Proof.
  intros Hf1 Hf2 Hr HD1 He S M d1 D2.
  destruct (contact_M_pos d f1 f2 r D1 Hf1 Hf2 Hr He) as [Hk HM].
  fold S in Hk, HM. fold M in Hk, HM.
  assert (Hd1 : d1 = - (S * D1 + d - f1 - f2 * D1) / D1).
  { unfold d1, S. field. split; lra. }
  assert (Hnum : (S * D1 + d - f1) ^ 2 + r ^ 2 = D1 * M).
  { unfold M. replace (r ^ 2) with (D1 * f1 ^ 2 - (d - f1) ^ 2) by lra. ring. }
  assert (HD2 : D2 = ((S * D1 + d - f1) ^ 2 + r ^ 2) / (f2 ^ 2 * D1 ^ 2)).
  { unfold D2, denominator. rewrite Hd1. field. split; lra. }
  rewrite Hnum in HD2.
  assert (HD2' : D2 = M / (f2 ^ 2 * D1)).
  { rewrite HD2. field. split; lra. }
  split.
  - rewrite HD2'. field. split; lra.
  - rewrite HD2', Hd1. field. repeat split; lra.
Qed.

Lemma single_algebra (d f1 f2 r D1 : R) :
  f1 <> 0 -> f2 <> 0 -> f1 + f2 <> 0 -> 0 < r -> 0 < D1 ->
  D1 * f1 ^ 2 = (d - f1) ^ 2 + r ^ 2 ->
  let S := f1 + f2 in
  let M := S ^ 2 * D1 + 2 * S * (d - f1) + f1 ^ 2 in
  let F := f1 * f2 / S in
  let DF := denominator d F r in
  DF = M / f2 ^ 2 /\
  F * (1 + (d / F - 1) / DF) = f2 * (M - f2 * (S * D1 + d - f1)) / M.
Proof.
  intros Hf1 Hf2 HS Hr HD1 He S M F DF.
  destruct (contact_M_pos d f1 f2 r D1 Hf1 Hf2 Hr He) as [Hk HM].
  fold S in Hk, HM. fold M in Hk, HM.
  assert (HDF : DF = ((S * d - f1 * f2) ^ 2 + r ^ 2 * S ^ 2) / (f1 ^ 2 * f2 ^ 2)).
  { unfold DF, denominator, F. field. repeat split; assumption. }
  rewrite <- Hk in HDF.
  assert (HDF' : DF = M / f2 ^ 2).
  { rewrite HDF. field. split; assumption. }
  split; [exact HDF' |].
  rewrite HDF'. unfold F.
  assert (HMe : M = S ^ 2 * D1 + 2 * S * (d - f1) + f1 ^ 2) by reflexivity.
  assert (HSe : S = f1 + f2) by reflexivity.
  clearbody M. fold S in HS. clearbody S.
  field_simplify_eq; [| repeat split; lra].
  rewrite HMe, HSe. ring.
Qed.

Lemma lenses_in_contact_aux (wavelength w position f1 f2 z : R) :
  0 < wavelength -> 0 < w -> f1 <> 0 -> f2 <> 0 ->
  let b := BeamSection.init wavelength w position in
  let b12 :=
    BeamSection.transformByLens (BeamSection.transformByLens b f1 z) f2 z in
  (f1 + f2 <> 0 ->
   b12 = BeamSection.transformByLens b (f1 * f2 / (f1 + f2)) z) /\
  (f1 + f2 = 0 -> b12 = b).
Proof.
  intros Hl Hw Hf1 Hf2 b b12.
  pose proof (zR_init_pos wavelength w position Hl Hw) as HzR. fold b in HzR.
  destruct (transform_fields wavelength w position f1 z Hl Hw Hf1)
    as (HD1 & Hs1 & Hss1 & _ & _ & _ & HzR1).
  fold b in HD1, Hs1, Hss1, HzR1.
  set (r := BeamSection.zR b) in *.
  set (d := z - position) in *.
  set (D1 := denominator d f1 r) in *.
  set (w1 := w / sqrt D1).
  set (p1 := z + f1 * (1 + (d / f1 - 1) / D1)).
  assert (Hw1pos : 0 < w1) by (unfold w1; apply Rdiv_lt_0_compat; lra).
  assert (Hb1 : BeamSection.transformByLens b f1 z
                = BeamSection.init wavelength w1 p1) by reflexivity.
  rewrite Hb1 in HzR1.
  assert (He : D1 * f1 ^ 2 = (d - f1) ^ 2 + r ^ 2).
  { unfold D1, denominator. field. exact Hf1. }
  destruct (transform_fields wavelength w1 p1 f2 z Hl Hw1pos Hf2)
    as (HD2 & Hs2 & Hss2 & _ & _ & _ & _).
  rewrite HzR1 in HD2, Hs2, Hss2.
  assert (Hd1 : z - p1 = - (f1 * (1 + (d / f1 - 1) / D1)))
    by (unfold p1; ring).
  rewrite Hd1 in HD2, Hs2, Hss2.
  destruct (contact_algebra d f1 f2 r D1 Hf1 Hf2 HzR HD1 He) as [Hprod Hpos].
  destruct (contact_M_pos d f1 f2 r D1 Hf1 Hf2 HzR He) as [_ HM].
  set (d1 := - (f1 * (1 + (d / f1 - 1) / D1))) in *.
  set (D2 := denominator d1 f2 (r / D1)) in *.
  set (M := (f1 + f2) ^ 2 * D1 + 2 * (f1 + f2) * (d - f1) + f1 ^ 2) in *.
  assert (Hb12 : b12 = BeamSection.init wavelength (w / sqrt (D1 * D2))
                         (z + f2 * (1 + (d1 / f2 - 1) / D2))).
  { unfold b12. rewrite Hb1. unfold BeamSection.transformByLens.
    change (BeamSection.lambd (BeamSection.init wavelength w1 p1))
      with wavelength.
    change (BeamSection.w0 (BeamSection.init wavelength w1 p1)) with w1.
    change (BeamSection.z0 (BeamSection.init wavelength w1 p1)) with p1.
    rewrite HzR1, Hd1. fold d1.
    change ((d1 / f2 - 1) ^ 2 + (r / D1 / f2) ^ 2) with D2.
    f_equal. unfold w1. rewrite sqrt_mult by lra. field. split; lra. }
  rewrite Hb12, Hpos, Hprod.
  split.
  - intros HS.
    destruct (single_algebra d f1 f2 r D1 Hf1 Hf2 HS HzR HD1 He)
      as [HDF HposF].
    fold M in HDF, HposF.
    unfold BeamSection.transformByLens.
    change (BeamSection.lambd b) with wavelength.
    change (BeamSection.w0 b) with w.
    change (BeamSection.z0 b) with position.
    fold d. fold r.
    change ((d / (f1 * f2 / (f1 + f2)) - 1) ^ 2
            + (r / (f1 * f2 / (f1 + f2))) ^ 2)
      with (denominator d (f1 * f2 / (f1 + f2)) r).
    rewrite HposF, HDF. reflexivity.
  - intros HS.
    assert (Hf2e : f2 = - f1) by lra.
    assert (HMe : M = f1 ^ 2) by (unfold M; rewrite HS; ring).
    rewrite HMe, Hf2e.
    replace (f1 ^ 2 / (- f1) ^ 2) with 1 by (field; exact Hf1).
    rewrite sqrt_1.
    unfold b, BeamSection.init.
    replace (w / 1) with w by field.
    f_equal. unfold d. field. exact Hf1.
Qed.

(** X21: two lenses at the same position act as a single lens whose
    inverse focal length is the sum of theirs, 1/f = 1/f1 + 1/f2; a lens
    followed by the opposite lens at the same position gives the
    incoming beam back; and the order of two lenses at the same position
    does not matter. *)
Theorem lenses_in_contact (wavelength w position f1 f2 z : R) :
  0 < wavelength -> 0 < w -> f1 <> 0 -> f2 <> 0 ->
  let b := BeamSection.init wavelength w position in
  let b12 :=
    BeamSection.transformByLens (BeamSection.transformByLens b f1 z) f2 z in
  let b21 :=
    BeamSection.transformByLens (BeamSection.transformByLens b f2 z) f1 z in
  (f1 + f2 <> 0 ->
   b12 = BeamSection.transformByLens b (f1 * f2 / (f1 + f2)) z) /\
  (f1 + f2 = 0 -> b12 = b) /\
  b12 = b21.
Proof.
  intros Hl Hw Hf1 Hf2 b b12 b21.
  destruct (lenses_in_contact_aux wavelength w position f1 f2 z Hl Hw Hf1 Hf2)
    as [H12 H12'].
  destruct (lenses_in_contact_aux wavelength w position f2 f1 z Hl Hw Hf2 Hf1)
    as [H21 H21'].
  fold b in H12, H12', H21, H21'. fold b12 in H12, H12'. fold b21 in H21, H21'.
  split; [exact H12 |]. split; [exact H12' |].
  destruct (Req_dec (f1 + f2) 0) as [HS | HS].
  - rewrite (H12' HS). symmetry. apply H21'. lra.
  - rewrite (H12 HS). rewrite H21 by lra.
    replace (f2 * f1 / (f2 + f1)) with (f1 * f2 / (f1 + f2))
      by (field; lra).
    reflexivity.
Qed.

Lemma lenses_in_contact_witness :
  let b := BeamSection.init 1 1 0 in
  let b12 :=
    BeamSection.transformByLens (BeamSection.transformByLens b 1 2) 3 2 in
  let b21 :=
    BeamSection.transformByLens (BeamSection.transformByLens b 3 2) 1 2 in
  (1 + 3 <> 0 -> b12 = BeamSection.transformByLens b (1 * 3 / (1 + 3)) 2) /\
  (1 + 3 = 0 -> b12 = b) /\
  b12 = b21.
Proof.
  apply (lenses_in_contact 1 1 0 1 3 2); lra.
Defined.

(** ** Further properties of the constructor *)

(** X12: when the caller's beam has positive wavelength and waist and
    every focal length is nonzero, every section of the constructed
    object has the caller's wavelength, a positive waist and a positive
    Rayleigh range. *)
Theorem sections_valid (wavelength w position : R) (lenses : list (R * R))
  (c : BeamPropagation.t) :
  BeamPropagation.init (wavelength, w, position) lenses = inr c ->
  0 < wavelength -> 0 < w ->
  (forall f, In f (map fst lenses) -> f <> 0) ->
  forall j : nat,
    (j < BeamPropagation.amountSections c)%nat ->
    BeamSection.lambd (segment c j) = wavelength /\
    0 < BeamSection.w0 (segment c j) /\
    0 < BeamSection.zR (segment c j).
Proof.
  intros Hinit Hl Hw Hnz j Hj.
  destruct (init_fields _ lenses c Hinit)
    as (_ & _ & _ & _ & _ & HS & _ & Hbp).
  set (fs := take_indices 0 (map fst lenses) (argsort (map snd lenses))) in *.
  set (ps := take_indices 0 (map snd lenses) (argsort (map snd lenses))) in *.
  destruct (columns_valid fs ps wavelength (length lenses) Hl 0%nat w position Hw)
    with (i := j) as (w' & p' & Hw' & Hcol).
  { intros k Hk. apply focals_nonzero; [exact Hnz | lia]. }
  { lia. }
  unfold segment. rewrite Hbp, Hcol. simpl.
  split; [reflexivity |]. split; [exact Hw' |].
  apply (zR_init_pos wavelength w' p' Hl Hw').
Qed.

Lemma sections_valid_witness :
  exists c : BeamPropagation.t,
    BeamPropagation.init (1, 1, 0) [(1, 2); (1, 1)] = inr c /\
    forall j : nat,
      (j < BeamPropagation.amountSections c)%nat ->
      BeamSection.lambd (segment c j) = 1 /\
      0 < BeamSection.w0 (segment c j) /\
      0 < BeamSection.zR (segment c j).
Proof.
  destruct (init_accepts (1, 1, 0) [(1, 2); (1, 1)]) as [c Hc];
    [waist_check |].
  exists c. split; [exact Hc |].
  apply (sections_valid 1 1 0 [(1, 2); (1, 1)] c Hc); try lra.
  intros f [<- | [<- | []]]; simpl; lra.
Defined.

(** X13: the sections the constructor builds fit together: at the
    position of every lens the section before it and the section after
    it give the same size. *)
Theorem sections_continuous (wavelength w position : R)
  (lenses : list (R * R)) (c : BeamPropagation.t) :
  BeamPropagation.init (wavelength, w, position) lenses = inr c ->
  0 < wavelength -> 0 < w ->
  (forall f, In f (map fst lenses) -> f <> 0) ->
  forall i : nat,
    (i < BeamPropagation.amountElements c)%nat ->
    BeamSection.waist (segment c (S i))
      (nth i (BeamPropagation.lensPositions c) 0)
    = BeamSection.waist (segment c i)
        (nth i (BeamPropagation.lensPositions c) 0).
Proof.
  intros Hinit Hl Hw Hnz i Hi.
  destruct (init_fields _ lenses c Hinit) as (_ & _ & _ & _ & HN & _).
  apply (segment_step_size wavelength w position lenses c i);
    try assumption.
  rewrite <- HN. exact Hi.
Qed.

Lemma sections_continuous_witness :
  exists c : BeamPropagation.t,
    BeamPropagation.init (1, 1, 0) [(1, 2); (1, 1)] = inr c /\
    forall i : nat,
      (i < BeamPropagation.amountElements c)%nat ->
      BeamSection.waist (segment c (S i))
        (nth i (BeamPropagation.lensPositions c) 0)
      = BeamSection.waist (segment c i)
          (nth i (BeamPropagation.lensPositions c) 0).
Proof.
  destruct (init_accepts (1, 1, 0) [(1, 2); (1, 1)]) as [c Hc];
    [waist_check |].
  exists c. split; [exact Hc |].
  apply (sections_continuous 1 1 0 [(1, 2); (1, 1)] c Hc); try lra.
  intros f [<- | [<- | []]]; simpl; lra.
Defined.

Lemma strict_sorted_perm_eq {A : Type} (key : A -> R) (l : list A) :
  forall l' : list A,
    StronglySorted (fun x y => key x < key y) l ->
    StronglySorted (fun x y => key x < key y) l' ->
    Permutation l l' -> l = l'.
Proof.
  induction l as [| x l IH]; intros l' Hs Hs' Hp.
  - apply Permutation_nil in Hp. symmetry. exact Hp.
  - destruct l' as [| y l'];
      [symmetry in Hp; apply Permutation_nil in Hp; discriminate |].
    inversion Hs as [| ? ? Hsl Hall]; subst.
    inversion Hs' as [| ? ? Hsl' Hall']; subst.
    rewrite Forall_forall in Hall, Hall'.
    assert (Hxy : x = y).
    { assert (Hx : In x (y :: l'))
        by (apply (Permutation_in _ Hp); left; reflexivity).
      assert (Hy : In y (x :: l))
        by (apply (Permutation_in _ (Permutation_sym Hp)); left; reflexivity).
      destruct Hx as [Hx | Hx]; [symmetry; exact Hx |].
      destruct Hy as [Hy | Hy]; [exact Hy |].
      pose proof (Hall y Hy). pose proof (Hall' x Hx). lra. }
    subst y. f_equal. apply IH; try assumption.
    apply (Permutation_cons_inv Hp).
Qed.

Lemma sorted_nodup_strict (L : list (R * R)) :
  Sorted Rle (map snd L) -> NoDup (map snd L) ->
  StronglySorted (fun x y => snd x < snd y) L.
Proof.
  induction L as [| x L IH]; intros Hs Hnd; [constructor |].
  simpl in Hs, Hnd.
  apply Sorted_StronglySorted in Hs; [| intros a b c; apply Rle_trans].
  inversion Hs as [| ? ? Hsl Hall]; subst.
  inversion Hnd as [| ? ? Hnin Hnd']; subst.
  constructor.
  - apply IH; [apply StronglySorted_Sorted; exact Hsl | exact Hnd'].
  - rewrite Forall_forall in *. intros y Hy.
    assert (Hin : In (snd y) (map snd L)) by (apply in_map; exact Hy).
    destruct (Hall _ Hin) as [Hlt | Heq]; [exact Hlt |].
    exfalso. apply Hnin. rewrite Heq. exact Hin.
Qed.

Lemma map_take_indices {A B : Type} (g : A -> B) (d : A) (a : list A)
  (idx : list nat) :
  map g (take_indices d a idx) = take_indices (g d) (map g a) idx.
Proof.
  unfold take_indices. rewrite map_map. apply map_ext.
  intros i. symmetry. apply map_nth.
Qed.

(** The lenses in the order the constructor stores them. *)
Lemma sorted_lenses_unique (lenses lenses' : list (R * R)) :
  Permutation lenses lenses' -> NoDup (map snd lenses) ->
  take_indices (0, 0) lenses (argsort (map snd lenses))
  = take_indices (0, 0) lenses' (argsort (map snd lenses')).
Proof.
  intros Hp Hnd.
  assert (Hnd' : NoDup (map snd lenses'))
    by (apply (Permutation_NoDup (Permutation_map snd Hp)); exact Hnd).
  assert (Hsorted : forall l : list (R * R),
            NoDup (map snd l) ->
            StronglySorted (fun x y => snd x < snd y)
              (take_indices (0, 0) l (argsort (map snd l)))).
  { intros l Hl. apply sorted_nodup_strict.
    - rewrite map_take_indices. apply argsort_sorted.
    - rewrite map_take_indices.
      apply (Permutation_NoDup (sorted_positions_perm l)). exact Hl. }
  apply (strict_sorted_perm_eq snd); [apply Hsorted; exact Hnd
                                     | apply Hsorted; exact Hnd' |].
  rewrite <- (take_argsort_perm (0, 0) lenses (map snd lenses))
    by apply length_map.
  rewrite <- (take_argsort_perm (0, 0) lenses' (map snd lenses'))
    by apply length_map.
  exact Hp.
Qed.

(** X14: the order in which the caller lists the lenses does not
    matter: two lists of lenses with pairwise distinct positions that
    are permutations of each other give the same result, object or
    exception. *)
Theorem init_order_irrelevant (params : R * R * R)
  (lenses lenses' : list (R * R)) :
  Permutation lenses lenses' -> NoDup (map snd lenses) ->
  BeamPropagation.init params lenses = BeamPropagation.init params lenses'.
Proof.
  intros Hp Hnd.
  pose proof (sorted_lenses_unique lenses lenses' Hp Hnd) as HL.
  assert (Hps : take_indices 0 (map snd lenses) (argsort (map snd lenses))
                = take_indices 0 (map snd lenses') (argsort (map snd lenses'))).
  { change 0 with (snd ((0, 0) : R * R)).
    rewrite <- !map_take_indices. rewrite HL. reflexivity. }
  assert (Hfs : take_indices 0 (map fst lenses) (argsort (map snd lenses))
                = take_indices 0 (map fst lenses') (argsort (map snd lenses'))).
  { change 0 with (fst ((0, 0) : R * R)).
    rewrite <- !map_take_indices. rewrite HL. reflexivity. }
  unfold BeamPropagation.init. cbv zeta.
  rewrite Hps, Hfs. reflexivity.
Qed.

Lemma init_order_irrelevant_witness :
  BeamPropagation.init (1, 1, 0) [(1, 2); (3, 1)]
  = BeamPropagation.init (1, 1, 0) [(3, 1); (1, 2)].
Proof.
  apply (init_order_irrelevant (1, 1, 0) [(1, 2); (3, 1)] [(3, 1); (1, 2)]).
  - apply perm_swap.
  - simpl. constructor.
    + intros [H | []]. lra.
    + constructor; [intros [] | constructor].
Defined.

(** X15: with no lens at all the constructor still compares the waist
    position with 1 (the empty array reduces to True): above 1 it raises
    the exception; otherwise the object has the single section of the
    caller's beam on the interval from -inf to +inf, [waist] returns the
    size of that beam at every [z], and [plotFull] with a limit left out
    raises [IndexError]. *)
Theorem init_no_lenses (params : R * R * R) :
  (1 < snd params ->
   BeamPropagation.init params []
   = inl (Exception BeamPropagation.waist_message)) /\
  (snd params <= 1 ->
   exists c : BeamPropagation.t,
     BeamPropagation.init params [] = inr c /\
     BeamPropagation.amountSections c = 1%nat /\
     BeamPropagation.beamParams c = [params] /\
     BeamPropagation.beamsLimits c = ([NegInf], [PosInf]) /\
     (forall z : R,
         BeamPropagation.waist c z
         = [BeamSection.waist (BeamSection_of params) z]) /\
     (forall zmin zmax : option R,
         zmin = None \/ zmax = None ->
         BeamPropagation.plotFull c zmin zmax = inl IndexError)).
Proof.
  split.
  - intros H. apply init_refuses. simpl. exact H.
  - intros H.
    destruct (init_accepts params []) as [c Hc]; [simpl; exact H |].
    exists c. split; [exact Hc |].
    destruct (init_fields params [] c Hc)
      as (Hps & Hfs & _ & _ & _ & HS & Hbl & Hbp).
    simpl in HS, Hbl, Hbp, Hps, Hfs.
    assert (Hidx : forall z, BeamPropagation.index c z = [0%nat]).
    { intros z. unfold BeamPropagation.index. rewrite HS, Hbl. reflexivity. }
    repeat split; try assumption.
    + intros z. unfold BeamPropagation.waist. rewrite Hidx, Hbp. reflexivity.
    + intros zmin zmax Hnone. unfold BeamPropagation.plotFull.
      rewrite Hps, Hfs.
      destruct Hnone as [-> | ->]; [| destruct zmin]; reflexivity.
Qed.

(** X16: in front of every lens [waist] returns the size of the caller's
    beam, and at or behind every lens the size of the last section. *)
Theorem waist_outside_lenses (params : R * R * R) (lenses : list (R * R))
  (c : BeamPropagation.t) :
  BeamPropagation.init params lenses = inr c ->
  (forall z : R,
      (forall p, In p (map snd lenses) -> z < p) ->
      BeamPropagation.waist c z
      = [BeamSection.waist (BeamSection_of params) z]) /\
  (forall z : R,
      (forall p, In p (map snd lenses) -> p <= z) ->
      BeamPropagation.waist c z
      = [BeamSection.waist (segment c (length lenses)) z]).
Proof.
  intros Hinit.
  destruct (init_fields params lenses c Hinit)
    as (Hps & _ & _ & _ & _ & HS & Hbl & Hbp).
  rewrite <- Hps in Hbl.
  assert (Hlen : length (BeamPropagation.lensPositions c) = length lenses).
  { rewrite Hps, take_indices_length, argsort_length. apply length_map. }
  assert (Hin : forall i, (i < length lenses)%nat ->
            In (nth i (BeamPropagation.lensPositions c) 0) (map snd lenses)).
  { intros i Hi.
    apply (Permutation_in (l := BeamPropagation.lensPositions c)).
    - rewrite Hps. symmetry. apply sorted_positions_perm.
    - apply nth_In. lia. }
  split; intros z Hz;
    destruct (waist_selects params lenses c z Hinit)
      as (j & Hj & _ & Hlo & Hup & Hw);
    rewrite Hw; rewrite Hbl in Hlo, Hup; simpl fst in Hlo; simpl snd in Hup.
  - destruct j as [| i].
    + unfold segment. rewrite Hbp. reflexivity.
    + exfalso. rewrite nth_lower in Hlo by lia.
      simpl in Hlo. apply Rgeb_true_iff in Hlo.
      pose proof (Hz _ (Hin i ltac:(lia))). lra.
  - destruct (Nat.eq_dec j (length lenses)) as [-> | Hne]; [reflexivity |].
    exfalso. rewrite nth_upper in Hup by lia.
    simpl in Hup. apply Rgeb_false_iff in Hup.
    pose proof (Hz _ (Hin j ltac:(lia))). lra.
Qed.

Lemma waist_outside_lenses_witness :
  exists c : BeamPropagation.t,
    BeamPropagation.init (1, 1, 0) [(1, 2); (1, 1)] = inr c /\
    (forall z : R,
        (forall p, In p (map snd [(1, 2); (1, 1)]) -> z < p) ->
        BeamPropagation.waist c z
        = [BeamSection.waist (BeamSection_of (1, 1, 0)) z]) /\
    (forall z : R,
        (forall p, In p (map snd [(1, 2); (1, 1)]) -> p <= z) ->
        BeamPropagation.waist c z
        = [BeamSection.waist (segment c (length [(1, 2); (1, 1)])) z]).
Proof.
  destruct (init_accepts (1, 1, 0) [(1, 2); (1, 1)]) as [c Hc];
    [waist_check |].
  exists c. split; [exact Hc |].
  apply (waist_outside_lenses (1, 1, 0) [(1, 2); (1, 1)] c Hc).
Defined.

(** ** Further properties of [plotFull] *)

Lemma rev_last {A : Type} (d : A) (l : list A) :
  l <> [] -> exists l', rev l = last l d :: l'.
Proof.
  intros Hne. destruct (exists_last Hne) as (l' & a & ->).
  exists (rev l'). rewrite rev_app_distr, last_last. reflexivity.
Qed.

Lemma last_as_nth {A : Type} (d : A) (l : list A) :
  last l d = nth (length l - 1) l d.
Proof.
  induction l as [| x l IH]; [reflexivity |].
  destruct l as [| y l]; [reflexivity |].
  change (last (x :: y :: l) d) with (last (y :: l) d). rewrite IH.
  simpl. rewrite Nat.sub_0_r. reflexivity.
Qed.

(** X17: when [plotFull] is called with either limit left out, both
    limits are replaced, also the one that was given: the profile runs
    from the caller's waist position to the position of the last lens
    plus its focal length, the last lens being the one with the greatest
    position. *)
Theorem plotFull_defaults (params : R * R * R) (lenses : list (R * R))
  (c : BeamPropagation.t) :
  BeamPropagation.init params lenses = inr c ->
  lenses <> [] ->
  let p := last (BeamPropagation.lensPositions c) 0 in
  let f := last (BeamPropagation.lensFocals c) 0 in
  In (f, p) lenses /\
  (forall q, In q (map snd lenses) -> q <= p) /\
  forall zmin zmax : option R,
    zmin = None \/ zmax = None ->
    BeamPropagation.plotFull c zmin zmax
    = BeamPropagation.plotFull c (Some (snd params)) (Some (p + f)).
Proof.
  intros Hinit Hne p f.
  destruct (init_fields params lenses c Hinit)
    as (Hps & Hfs & Hz0 & _ & _ & _ & _ & _).
  assert (HlenP : length (BeamPropagation.lensPositions c) = length lenses).
  { rewrite Hps, take_indices_length, argsort_length. apply length_map. }
  assert (HlenF : length (BeamPropagation.lensFocals c) = length lenses).
  { rewrite Hfs, take_indices_length, argsort_length. apply length_map. }
  assert (Hpos : (0 < length lenses)%nat).
  { destruct lenses; [contradiction | simpl; lia]. }
  assert (Hsorted : Sorted Rle (BeamPropagation.lensPositions c))
    by (rewrite Hps; apply argsort_sorted).
  split; [| split].
  - (* the last lens is one of the caller's lenses *)
    set (L := take_indices (0, 0) lenses (argsort (map snd lenses))).
    assert (HLp : BeamPropagation.lensPositions c = map snd L).
    { rewrite Hps. unfold L. rewrite map_take_indices. reflexivity. }
    assert (HLf : BeamPropagation.lensFocals c = map fst L).
    { rewrite Hfs. unfold L. rewrite map_take_indices. reflexivity. }
    assert (HlenL : length L = length lenses).
    { unfold L. rewrite take_indices_length, argsort_length. apply length_map. }
    assert (Hfp : (f, p) = nth (length L - 1) L (0, 0)).
    { unfold f, p. rewrite !last_as_nth, HlenP, HlenF, HLp, HLf, HlenL.
      rewrite (map_nth snd L (0, 0) (length lenses - 1) : nth _ _ 0 = _).
      rewrite (map_nth fst L (0, 0) (length lenses - 1) : nth _ _ 0 = _).
      destruct (nth (length lenses - 1) L (0, 0)); reflexivity. }
    rewrite Hfp.
    apply (Permutation_in (l := L)).
    + symmetry. apply take_argsort_perm. apply length_map.
    + apply nth_In. lia.
  - intros q Hq.
    assert (Hq' : In q (BeamPropagation.lensPositions c)).
    { rewrite Hps. apply (Permutation_in _ (sorted_positions_perm lenses)).
      exact Hq. }
    destruct (In_nth _ _ 0 Hq') as (i & Hi & <-).
    unfold p. rewrite last_as_nth.
    apply sorted_nth_le; [exact Hsorted | lia | lia].
  - intros zmin zmax Hnone.
    assert (HneP : BeamPropagation.lensPositions c <> [])
      by (intros E; rewrite E in HlenP; simpl in HlenP; lia).
    assert (HneF : BeamPropagation.lensFocals c <> [])
      by (intros E; rewrite E in HlenF; simpl in HlenF; lia).
    destruct (rev_last 0 _ HneP) as (lp & Hrp).
    destruct (rev_last 0 _ HneF) as (lf & Hrf).
    assert (Hdef : forall a b : option R,
              a = None \/ b = None ->
              match a, b with
              | Some x, Some y => inr (x, y)
              | _, _ =>
                  match rev (BeamPropagation.lensPositions c),
                        rev (BeamPropagation.lensFocals c) with
                  | p0 :: _, f0 :: _ => inr (BeamPropagation.z0 c, p0 + f0)
                  | _, _ => inl IndexError
                  end
              end = (inr (snd params, p + f) : exn + R * R)).
    { intros a b Hab. rewrite Hrp, Hrf, Hz0.
      destruct Hab as [-> | ->]; [| destruct a]; reflexivity. }
    unfold BeamPropagation.plotFull. rewrite (Hdef zmin zmax Hnone).
    reflexivity.
Qed.

Lemma plotFull_defaults_witness :
  exists c : BeamPropagation.t,
    BeamPropagation.init (1, 1, 0) [(1, 2); (3, 1)] = inr c /\
    let p := last (BeamPropagation.lensPositions c) 0 in
    let f := last (BeamPropagation.lensFocals c) 0 in
    In (f, p) [(1, 2); (3, 1)] /\
    (forall q, In q (map snd [(1, 2); (3, 1)]) -> q <= p) /\
    forall zmin zmax : option R,
      zmin = None \/ zmax = None ->
      BeamPropagation.plotFull c zmin zmax
      = BeamPropagation.plotFull c (Some (snd (1, 1, 0))) (Some (p + f)).
Proof.
  destruct (init_accepts (1, 1, 0) [(1, 2); (3, 1)]) as [c Hc];
    [waist_check |].
  exists c. split; [exact Hc |].
  apply (plotFull_defaults (1, 1, 0) [(1, 2); (3, 1)] c Hc).
  discriminate.
Defined.




(** X20: every entry of [beamWidth] is written by the loop over the
    sections: sample [k] gets the size of the one section whose interval
    (lower, upper] contains it, and for a beam of positive wavelength
    and waist and nonzero focal lengths no entry keeps the initial 0. *)
Theorem plotFull_routing (wavelength w position : R)
  (lenses : list (R * R)) (c : BeamPropagation.t) (zmin zmax : R) :
  BeamPropagation.init (wavelength, w, position) lenses = inr c ->
  0 < wavelength -> 0 < w ->
  (forall f, In f (map fst lenses) -> f <> 0) ->
  zmin <> zmax ->
  exists z beamWidth : list R,
    BeamPropagation.plotFull c (Some zmin) (Some zmax) = inr (z, beamWidth) /\
    forall k : nat,
      (k < 300)%nat ->
      0 < nth k beamWidth 0 /\
      exists j : nat,
        (j < BeamPropagation.amountSections c)%nat /\
        interval_contains c (nth k z 0) j = true /\
        nth k beamWidth 0 = BeamSection.waist (segment c j) (nth k z 0) /\
        BeamSection.w0 (segment c j) <= nth k beamWidth 0.
Proof.
  intros Hinit Hl Hw Hnz Hne.
  eexists. eexists.
  split; [apply plotFull_given; exact Hne |].
  set (z := map (fun i => zmin + INR i * ((zmax - zmin) / 300))
              (seq 0 BeamPropagation.NUMBER_OF_STEPS)).
  assert (Hlen : length z = 300%nat)
    by (unfold z; rewrite length_map, length_seq; reflexivity).
  intros k Hk.
  destruct (beamsLimits_cover _ lenses c (nth k z 0) Hinit)
    as (j & Hj & Hin & Huniq).
  assert (Hval : nth k (fold_left (BeamPropagation.plot_body c z)
                     (seq 0 (BeamPropagation.amountSections c))
                     (repeat 0 BeamPropagation.NUMBER_OF_STEPS)) 0
                 = BeamSection.waist (segment c j) (nth k z 0)).
  { replace BeamPropagation.NUMBER_OF_STEPS with (length z) by exact Hlen.
    rewrite (plot_fold_nth c z k j) by (try assumption; lia).
    rewrite (proj2 (Nat.ltb_lt _ _) Hj). reflexivity. }
  destruct (init_fields _ lenses c Hinit)
    as (_ & _ & _ & _ & _ & HS & _ & Hbp).
  set (fs := take_indices 0 (map fst lenses) (argsort (map snd lenses))) in *.
  set (ps := take_indices 0 (map snd lenses) (argsort (map snd lenses))) in *.
  destruct (columns_valid fs ps wavelength (length lenses) Hl 0%nat w position Hw)
    with (i := j) as (w' & p' & Hw' & Hcol).
  { intros i Hi. apply focals_nonzero; [exact Hnz | lia]. }
  { lia. }
  assert (Hseg : segment c j = BeamSection.init wavelength w' p').
  { unfold segment. rewrite Hbp, Hcol. reflexivity. }
  assert (Hge : w' <= BeamSection.waist (segment c j) (nth k z 0)).
  { rewrite Hseg.
    pose proof (zR_init_pos wavelength w' p' Hl Hw') as HzR.
    unfold BeamSection.waist.
    change (BeamSection.w0 (BeamSection.init wavelength w' p')) with w'.
    assert (Hr : BeamSection.zR (BeamSection.init wavelength w' p') <> 0)
      by lra.
    pose proof (sq_ratio_nonneg
                  (nth k z 0 - BeamSection.z0 (BeamSection.init wavelength w' p'))
                  _ Hr) as Hq.
    pose proof (sqrt_one_plus_ge_1 _ Hq). nra. }
  rewrite Hval. split; [lra |].
  exists j. split; [exact Hj |]. split; [exact Hin |].
  split; [reflexivity |].
  rewrite Hseg at 1. exact Hge.
Qed.

Lemma plotFull_routing_witness :
  exists c : BeamPropagation.t,
    BeamPropagation.init (1, 1, 0) [(1, 1)] = inr c /\
    exists z beamWidth : list R,
      BeamPropagation.plotFull c (Some 0) (Some 3) = inr (z, beamWidth) /\
      forall k : nat,
        (k < 300)%nat ->
        0 < nth k beamWidth 0 /\
        exists j : nat,
          (j < BeamPropagation.amountSections c)%nat /\
          interval_contains c (nth k z 0) j = true /\
          nth k beamWidth 0 = BeamSection.waist (segment c j) (nth k z 0) /\
          BeamSection.w0 (segment c j) <= nth k beamWidth 0.
Proof.
  destruct (init_accepts (1, 1, 0) [(1, 1)]) as [c Hc]; [waist_check |].
  exists c. split; [exact Hc |].
  apply (plotFull_routing 1 1 0 [(1, 1)] c 0 3 Hc); try lra.
  intros f [<- | []]. simpl. lra.
Defined.
